(** * HmSearch: a Hamming-distance index over an ordered key-value store

    A shallow embedding of [hmsearch.cc] and the properties of its
    parameter validation, key codec, writer, reader and hex codec.

    Conventions of the embedding:
    - [uint8_t] is [Byte.byte]; a [hash_string]
      ([std::basic_string<uint8_t>]) is a [list byte];
    - [int] and [unsigned] values are [Z]; C's [/] and [%] are [Z.quot]
      and [Z.rem]; a conversion to [uint8_t] is [U8.of_Z] (reduction
      modulo 256);
    - [std::string] and C strings are [list ascii]/[string];
    - a LevelDB database is a [gmap] from byte keys to byte values; the
      directory tree holding databases is a [gmap] from paths to
      databases;
    - a function returns [None] where the C++ source has undefined
      behaviour (a shift by a negative count, a read or write outside an
      array), and [Some r] otherwise. *)

From Stdlib Require Import ZArith Lia List Ascii String Sorted.
From Stdlib Require Import Init.Byte Strings.Byte DecimalString.
From Stdlib Require Import Decimal DecimalPos DecimalN.
From stdpp Require Import base option list countable gmap strings.

Local Open Scope Z_scope.

(** [lia] is to reason about [/], [mod], [Z.quot] and [Z.rem] as well. *)
#[local] Ltac Zify.zify_post_hook ::= Z.to_euclidean_division_equations.

(** ** Bytes *)

Module U8.

Definition val (b : byte) : Z := Z.of_N (Byte.to_N b).

(** Conversion of an [int] to [uint8_t]: the value modulo 256. *)
Definition of_Z (z : Z) : byte :=
  match Byte.of_N (Z.to_N (z mod 256)) with
  | Some b => b
  | None => x00
  end.

Definition xor (a b : byte) : byte := of_Z (Z.lxor (val a) (val b)).

(** Bit [t] of a byte, numbered from the most significant bit (bit 0)
    to the least significant one (bit 7). *)
Definition bit (b : byte) (t : Z) : bool := Z.testbit (val b) (7 - t).

End U8.

#[global] Instance byte_eq_dec : EqDecision byte := Byte.byte_eq_dec.

#[global] Program Instance byte_countable : Countable byte :=
  inj_countable' Byte.to_N (fun n => default x00 (Byte.of_N n)) _.
Next Obligation. intros b. by destruct b. Qed.

Abbreviation hash_string := (list byte).

(** [s[pos]] on a [basic_string]: the element, or the terminator
    [charT()] when [pos = s.size()]; anything further is out of bounds. *)
Definition at_ (s : hash_string) (pos : Z) : option byte :=
  if decide (0 <= pos < Z.of_nat (length s)) then s !! Z.to_nat pos
  else if decide (pos = Z.of_nat (length s)) then Some x00
  else None.

(** ** The store *)

Abbreviation DB := (gmap (list byte) (list byte)).

(** ** The index handle *)

Record HmSearchImpl := mkImpl {
  _db : option DB;
  _hash_bits : Z;
  _max_error : Z;
  _hash_bytes : Z;
  _partitions : Z;
  _partition_bits : Z;
  _partition_bytes : Z
}.

(** [ceil((double)hash_bits / partitions)].  Both operands are exact as
    doubles and a quotient that is not an integer is at least
    [1/partitions] away from one, which the rounding of the division
    (53 bits) cannot bridge for 32-bit operands: the result is the
    integer ceiling. *)
Definition ceil_div (a p : Z) : Z := (a + p - 1) / p.

(** The constructor [HmSearchImpl::HmSearchImpl].  Its [int] arithmetic
    is written in [Z]: it is the constructor's as long as nothing
    overflows and the number of partitions is positive, which is so for
    [0 <= hash_bits <= 2^31 - 8] and [0 <= max_error <= 2^31 - 4]
    ([int_params] below). *)
Definition HmSearchImpl_new (db : option DB) (hash_bits max_error : Z)
  : HmSearchImpl :=
  let partitions := Z.quot (max_error + 3) 2 in
  let partition_bits := ceil_div hash_bits partitions in
  {| _db := db;
     _hash_bits := hash_bits;
     _max_error := max_error;
     _hash_bytes := Z.quot (hash_bits + 7) 8;
     _partitions := partitions;
     _partition_bits := partition_bits;
     _partition_bytes := Z.quot (partition_bits + 7) 8 + 1 |}.

(** ** Key codec *)

(** [x << n] on [int]: undefined for a count outside [0, 32). *)
Definition shl (x n : Z) : option Z :=
  if decide (0 <= n < 32) then Some (Z.shiftl x n) else None.

Section KeyCodec.
Variable hm : HmSearchImpl.

(** The body of the copy loop of [get_partition_key], from iteration
    [i] on, [n] iterations to go; the bytes produced are [key[i+2]]
    onwards. *)
Fixpoint copy_bits (hash : hash_string) (n : nat) (hash_bit bits_left : Z)
  : option (list byte) :=
  match n with
  | O => Some []
  | S n' =>
      let byte := Z.quot hash_bit 8 in
      let bit := Z.rem hash_bit 8 in
      let bits := 8 - bit in
      let bits := if decide (bits > bits_left) then bits_left else bits in
      let bits_left := bits_left - bits in
      let hash_bit := hash_bit + bits in
      hb ← at_ hash byte;
      m ← shl 1 bits;
      mask ← shl (m - 1) (8 - bit - bits);
      rest ← copy_bits hash n' hash_bit bits_left;
      Some (U8.of_Z (Z.land (U8.val hb) mask) :: rest)
  end.

(** [get_partition_key]: the key written to [key[0 .. _partition_bytes + 2)]
    and the returned [psize]. *)
Definition get_partition_key (hash : hash_string) (partition : Z)
  : option (list byte * Z) :=
  let psize := _hash_bits hm - partition * _partition_bits hm in
  let psize :=
    if decide (psize > _partition_bits hm) then _partition_bits hm
    else psize in
  if decide (_partition_bytes hm < 0) then None else
  rest ← copy_bits hash (Z.to_nat (_partition_bytes hm))
                   (partition * _partition_bits hm) psize;
  Some ("P"%byte :: U8.of_Z partition :: rest, psize).
End KeyCodec.


(** ** LevelDB, as far as the index uses it *)

Module leveldb.

Inductive Status :=
| OK
| NotFound
| InvalidArgument (msg msg2 : string).

Definition ok (s : Status) : bool :=
  match s with OK => true | _ => false end.

Definition ToString (s : Status) : string :=
  match s with
  | OK => "OK"
  | NotFound => "NotFound: "
  | InvalidArgument msg msg2 => "Invalid argument: " ++ msg ++ ": " ++ msg2
  end%string.

Record Options := { create_if_missing : bool; error_if_exists : bool }.

(** The databases on disk, by path. *)
Abbreviation FS := (gmap string DB).

(** [DB::Open]: the status, the database opened and the directory tree
    afterwards. *)
Definition Open (options : Options) (path : string) (fs : FS)
  : Status * option DB * FS :=
  match fs !! path with
  | Some db =>
      if error_if_exists options
      then (InvalidArgument path "exists (error_if_exists is true)", None, fs)
      else (OK, Some db, fs)
  | None =>
      if create_if_missing options
      then (OK, Some ∅, <[path := ∅]> fs)
      else (InvalidArgument path "does not exist (create_if_missing is false)",
            None, fs)
  end.

(** [DB::Put] replaces the value stored under [key].  Failures of the
    device are outside the model: the status is always [OK]. *)
Definition Put (db : DB) (key value : list byte) : Status * DB :=
  (OK, <[key := value]> db).

Definition Get (db : DB) (key : list byte) : Status * list byte :=
  match db !! key with
  | Some v => (OK, v)
  | None => (NotFound, [])
  end.

End leveldb.

(** A [std::string] (or string literal) as the bytes LevelDB stores. *)
Definition bytes_of_string (s : string) : list byte :=
  String.list_byte_of_string s.

(** [snprintf(buf, sizeof(buf), "%u", n)] for a 32-bit [n]. *)
Definition format_u (n : Z) : string :=
  DecimalString.NilZero.string_of_uint (N.to_uint (Z.to_N n)).

(** ** Error messages *)

Definition InvalidHashBits : string := "invalid hash_bits value".
Definition InvalidMaxError : string := "invalid max_error value".
Definition InvalidHashLength : string := "incorrect hash length".
Definition Closed : string := "database is closed".

(** ** Parameterization: [HmSearch::init] *)

(** The two parameter checks of [init]: [None] when they pass, the error
    message otherwise. *)
Definition init_validate (hash_bits max_error : Z) : option string :=
  if decide (hash_bits = 0 \/ Z.land hash_bits 7 <> 0) then
    Some InvalidHashBits
  else if decide (max_error = 0 \/ max_error >= hash_bits \/ max_error > 518)
  then Some InvalidMaxError
  else None.

(** [init]: the returned flag, [*error_msg] and the directory tree
    afterwards.  [num_hashes] is not used by the source. *)
Definition init (fs : leveldb.FS) (path : string) (hash_bits max_error : Z)
  : bool * string * leveldb.FS :=
  match init_validate hash_bits max_error with
  | Some msg => (false, msg, fs)
  | None =>
      let options := {| leveldb.create_if_missing := true;
                        leveldb.error_if_exists := true |} in
      match leveldb.Open options path fs with
      | (status, Some db, fs) =>
          let '(status, db) :=
            leveldb.Put db (bytes_of_string "_hb") (bytes_of_string (format_u hash_bits)) in
          if negb (leveldb.ok status)
          then (false, leveldb.ToString status, <[path := db]> fs) else
          let '(status, db) :=
            leveldb.Put db (bytes_of_string "_me") (bytes_of_string (format_u max_error)) in
          if negb (leveldb.ok status)
          then (false, leveldb.ToString status, <[path := db]> fs) else
          (true, ""%string, <[path := db]> fs)
      | (status, None, fs) => (false, leveldb.ToString status, fs)
      end
  end.

(** ** C strings and [strtoul] *)

Definition NUL : ascii := "000"%char.

(** The C string starting at the beginning of a buffer: the characters
    before the first NUL. *)
Fixpoint c_str (buf : list ascii) : list ascii :=
  match buf with
  | [] => []
  | c :: buf' => if decide (c = NUL) then [] else c :: c_str buf'
  end.

Definition isspace (c : ascii) : bool :=
  let n := Z.of_nat (nat_of_ascii c) in
  bool_decide (n = 32 \/ 9 <= n <= 13).

(** The value of a character as a digit, in any base up to 36. *)
Definition digit_value (c : ascii) : option Z :=
  let n := Z.of_nat (nat_of_ascii c) in
  if decide (48 <= n <= 57) then Some (n - 48)
  else if decide (97 <= n <= 122) then Some (n - 97 + 10)
  else if decide (65 <= n <= 90) then Some (n - 65 + 10)
  else None.

Definition is_digit (base : Z) (c : ascii) : bool :=
  match digit_value c with
  | Some d => bool_decide (d < base)
  | None => false
  end.

Fixpoint span_while {A} (p : A -> bool) (l : list A) : list A :=
  match l with
  | [] => []
  | x :: l' => if p x then x :: span_while p l' else []
  end.

Definition ULONG_MAX : Z := 2 ^ 64 - 1.

(** [strtoul(nptr, &endptr, base)] for [base] 10 or 16: the value
    returned and the offset of [endptr] from [nptr].  White space is
    skipped, a sign is accepted, and so is a [0x] prefix in base 16 when
    a digit follows; without any digit nothing is consumed. *)
Definition strtoul (nptr : list ascii) (base : Z) : Z * nat :=
  let s := c_str nptr in
  let ws := length (span_while isspace s) in
  let s := drop ws s in
  let '(neg, sg) :=
    match s with
    | "-"%char :: _ => (true, 1%nat)
    | "+"%char :: _ => (false, 1%nat)
    | _ => (false, 0%nat)
    end in
  let s := drop sg s in
  let px :=
    match s with
    | "0"%char :: x :: d :: _ =>
        if bool_decide (base = 16)
           && bool_decide (x = "x"%char \/ x = "X"%char) && is_digit base d
        then 2%nat else 0%nat
    | _ => 0%nat
    end in
  let s := drop px s in
  let ds := span_while (is_digit base) s in
  match ds with
  | [] => (0, 0%nat)
  | _ =>
      let v := foldl (fun acc c => acc * base + default 0 (digit_value c)) 0 ds in
      let v := if decide (v > ULONG_MAX) then ULONG_MAX
               else if neg then (- v) mod 2 ^ 64 else v in
      (v, (ws + sg + px + length ds)%nat)
  end.

(** The bytes of a LevelDB value read as characters. *)
Definition chars_of_bytes (v : list byte) : list ascii := ascii_of_byte <$> v.

(** Conversions between the integer types involved. *)
Definition int_of_ulong (z : Z) : Z := (z + 2 ^ 31) mod 2 ^ 32 - 2 ^ 31.
Definition size_t_of_int (z : Z) : Z := z mod 2 ^ 64.

(** ** [HmSearch::open] *)

Definition open (fs : leveldb.FS) (path : string)
  : option HmSearchImpl * string :=
  let options := {| leveldb.create_if_missing := false;
                    leveldb.error_if_exists := false |} in
  match leveldb.Open options path fs with
  | (status, None, _) => (None, leveldb.ToString status)
  | (_, Some db, _) =>
      let '(status, v) := leveldb.Get db (bytes_of_string "_hb") in
      let hash_bits := (strtoul (chars_of_bytes v) 10).1 in
      if negb (leveldb.ok status) || bool_decide (hash_bits = 0)
      then (None, leveldb.ToString status) else
      let '(status, v) := leveldb.Get db (bytes_of_string "_me") in
      let max_error := (strtoul (chars_of_bytes v) 10).1 in
      if negb (leveldb.ok status) || bool_decide (max_error = 0)
      then (None, leveldb.ToString status) else
      (Some (HmSearchImpl_new (Some db) (int_of_ulong hash_bits)
                              (int_of_ulong max_error)), ""%string)
  end.

(** ** Writer: [HmSearchImpl::insert] *)

Definition set_db (hm : HmSearchImpl) (db : option DB) : HmSearchImpl :=
  {| _db := db;
     _hash_bits := _hash_bits hm;
     _max_error := _max_error hm;
     _hash_bytes := _hash_bytes hm;
     _partitions := _partitions hm;
     _partition_bits := _partition_bits hm;
     _partition_bytes := _partition_bytes hm |}.

(** The loop over the partitions, from partition [i] on, [n] to go. *)
Fixpoint insert_loop (hm : HmSearchImpl) (hash : hash_string) (n : nat)
    (i : Z) (db : DB) : option (bool * string * DB) :=
  match n with
  | O => Some (true, ""%string, db)
  | S n' =>
      '(key, _) ← get_partition_key hm hash i;
      let '(status, db) := leveldb.Put db key hash in
      if negb (leveldb.ok status)
      then Some (false, leveldb.ToString status, db)
      else insert_loop hm hash n' (i + 1) db
  end.

(** [insert]: the returned flag, [*error_msg] and the handle afterwards. *)
Definition insert (hm : HmSearchImpl) (hash : hash_string)
  : option (bool * string * HmSearchImpl) :=
  if decide (Z.of_nat (length hash) <> size_t_of_int (_hash_bytes hm))
  then Some (false, InvalidHashLength, hm)
  else match _db hm with
       | None => Some (false, Closed, hm)
       | Some db =>
           '(ok, msg, db) ← insert_loop hm hash (Z.to_nat (_partitions hm)) 0 db;
           Some (ok, msg, set_db hm (Some db))
       end.

(** [close]. *)
Definition close (hm : HmSearchImpl) : bool * string * HmSearchImpl :=
  match _db hm with
  | None => (true, ""%string, hm)
  | Some _ => (true, ""%string, set_db hm None)
  end.

(** ** Reader: candidates *)

Record Candidate := mkCandidate {
  matches : Z;
  first_match : Z;
  second_match : Z
}.

(** The default constructor [Candidate()]. *)
Definition Candidate_new : Candidate :=
  {| matches := 0; first_match := 0; second_match := 0 |}.

(** The order of [std::basic_string<uint8_t>]: lexicographic on the byte
    values, a proper prefix first. *)
Fixpoint hash_compare (a b : hash_string) : comparison :=
  match a, b with
  | [], [] => Eq
  | [], _ :: _ => Lt
  | _ :: _, [] => Gt
  | x :: a', y :: b' =>
      match Z.compare (U8.val x) (U8.val y) with
      | Eq => hash_compare a' b'
      | c => c
      end
  end.

(** [std::map<hash_string, Candidate>]: the entries in increasing key
    order, which is the order its iterator visits them in. *)
Definition CandidateMap := list (hash_string * Candidate).

(** [f(candidates[hash])], where [candidates[hash]] inserts a default
    [Candidate] when the key is absent. *)
Fixpoint cm_update (candidates : CandidateMap) (hash : hash_string)
    (f : Candidate -> Candidate) : CandidateMap :=
  match candidates with
  | [] => [(hash, f Candidate_new)]
  | (h, c) :: rest =>
      match hash_compare hash h with
      | Eq => (h, f c) :: rest
      | Lt => (hash, f Candidate_new) :: candidates
      | Gt => (h, c) :: cm_update rest hash f
      end
  end.

(** What [add_hash_candidates] does to one candidate. *)
Definition bump (match_ : Z) (cand : Candidate) : Candidate :=
  let m := matches cand + 1 in
  if decide (m = 1) then
    {| matches := m; first_match := match_; second_match := second_match cand |}
  else if decide (m = 2) then
    {| matches := m; first_match := first_match cand; second_match := match_ |}
  else
    {| matches := m; first_match := first_match cand;
       second_match := second_match cand |}.

Section Reader.
Variable hm : HmSearchImpl.

(** The loop of [add_hash_candidates] from offset [n] on.  Each round
    reads [_hash_bytes] bytes at [hashes + n], where [hashes] is the
    [data()] of a [std::string]: its characters and the terminator
    after them.  [fuel] bounds the number of rounds. *)
Fixpoint add_hash_candidates_from (fuel : nat) (candidates : CandidateMap)
    (match_ : Z) (hashes : list byte) (n : nat) : option CandidateMap :=
  if decide (n < length hashes)%nat then
    match fuel with
    | O => None
    | S fuel' =>
        let hb := Z.to_nat (_hash_bytes hm) in
        if decide (n + hb <= length hashes + 1)%nat then
          let hash := take hb (drop n (hashes ++ [x00])) in
          add_hash_candidates_from fuel'
            (cm_update candidates hash (bump match_)) match_ hashes (n + hb)
        else None
    end
  else Some candidates.

(** [add_hash_candidates(candidates, match, hashes, length)].  With
    [_hash_bytes >= 1] the loop takes at most [length] rounds. *)
Definition add_hash_candidates (candidates : CandidateMap) (match_ : Z)
    (hashes : list byte) : option CandidateMap :=
  if decide (_hash_bytes hm <= 0) then
    match hashes with [] => Some candidates | _ => None end
  else add_hash_candidates_from (length hashes) candidates match_ hashes 0.

(** [key[idx] ^= flip]. *)
Definition xor_at (key : list byte) (idx : Z) (flip : byte)
  : option (list byte) :=
  if decide (0 <= idx) then
    b ← key !! Z.to_nat idx;
    Some (<[Z.to_nat idx := U8.xor b flip]> key)
  else None.

(** One probe of the store: the hashes under [key], if any, become
    candidates of tier [match_]. *)
Definition probe (db : DB) (key : list byte) (match_ : Z)
    (candidates : CandidateMap) : option CandidateMap :=
  let '(status, hashes) := leveldb.Get db key in
  if leveldb.ok status then add_hash_candidates candidates match_ hashes
  else Some candidates.

(** The loop over the 1-variants of a partition key: [n] bits to go,
    the next one is [pbit]. *)
Fixpoint variants_loop (db : DB) (pbyte : Z) (n : nat) (pbit : Z)
    (key : list byte) (candidates : CandidateMap)
  : option (list byte * CandidateMap) :=
  match n with
  | O => Some (key, candidates)
  | S n' =>
      f ← shl 1 (7 - Z.rem pbit 8);
      let flip := U8.of_Z f in
      let idx := Z.quot pbit 8 - pbyte + 2 in
      key ← xor_at key idx flip;
      candidates ← probe db key 1 candidates;
      key ← xor_at key idx flip;
      variants_loop db pbyte n' (pbit + 1) key candidates
  end.

(** The loop of [get_candidates] over the partitions, from partition
    [i] on, [n] to go. *)
Fixpoint get_candidates_loop (db : DB) (query : hash_string) (n : nat)
    (i : Z) (candidates : CandidateMap) : option CandidateMap :=
  match n with
  | O => Some candidates
  | S n' =>
      '(key, bits) ← get_partition_key hm query i;
      candidates ← probe db key 0 candidates;
      let pbyte := Z.quot (i * _partition_bits hm) 8 in
      '(_, candidates) ←
        variants_loop db pbyte (Z.to_nat bits) (i * _partition_bits hm)
                      key candidates;
      get_candidates_loop db query n' (i + 1) candidates
  end.

Definition get_candidates (db : DB) (query : hash_string)
    (candidates : CandidateMap) : option CandidateMap :=
  get_candidates_loop db query (Z.to_nat (_partitions hm)) 0 candidates.

(** [valid_candidate]. *)
Definition valid_candidate (candidate : Candidate) : bool :=
  if decide (Z.land (_max_error hm) 1 <> 0) then
    (* Odd k *)
    if decide (matches candidate < 3) then
      if decide (matches candidate = 1
                 \/ (first_match candidate <> 0 /\ second_match candidate <> 0))
      then false else true
    else true
  else
    (* Even k *)
    if decide (matches candidate < 2) then
      if decide (first_match candidate <> 0) then false else true
    else true.
End Reader.

(** ** Popcount table and Hamming distance *)

Definition one_bits : list Z :=
  [ 0; 1; 1; 2; 1; 2; 2; 3; 1; 2; 2; 3; 2; 3; 3; 4;
    1; 2; 2; 3; 2; 3; 3; 4; 2; 3; 3; 4; 3; 4; 4; 5;
    1; 2; 2; 3; 2; 3; 3; 4; 2; 3; 3; 4; 3; 4; 4; 5;
    2; 3; 3; 4; 3; 4; 4; 5; 3; 4; 4; 5; 4; 5; 5; 6;
    1; 2; 2; 3; 2; 3; 3; 4; 2; 3; 3; 4; 3; 4; 4; 5;
    2; 3; 3; 4; 3; 4; 4; 5; 3; 4; 4; 5; 4; 5; 5; 6;
    2; 3; 3; 4; 3; 4; 4; 5; 3; 4; 4; 5; 4; 5; 5; 6;
    3; 4; 4; 5; 4; 5; 5; 6; 4; 5; 5; 6; 5; 6; 6; 7;
    1; 2; 2; 3; 2; 3; 3; 4; 2; 3; 3; 4; 3; 4; 4; 5;
    2; 3; 3; 4; 3; 4; 4; 5; 3; 4; 4; 5; 4; 5; 5; 6;
    2; 3; 3; 4; 3; 4; 4; 5; 3; 4; 4; 5; 4; 5; 5; 6;
    3; 4; 4; 5; 4; 5; 5; 6; 4; 5; 5; 6; 5; 6; 6; 7;
    2; 3; 3; 4; 3; 4; 4; 5; 3; 4; 4; 5; 4; 5; 5; 6;
    3; 4; 4; 5; 4; 5; 5; 6; 4; 5; 5; 6; 5; 6; 6; 7;
    3; 4; 4; 5; 4; 5; 5; 6; 4; 5; 5; 6; 5; 6; 6; 7;
    4; 5; 5; 6; 5; 6; 6; 7; 5; 6; 6; 7; 6; 7; 7; 8 ].

(** The loop of [hamming_distance] from index [i] on; [rest] is the part
    of the query from [i] on. *)
Fixpoint hamming_from (rest : list byte) (hash : hash_string) (i : Z)
    (distance : Z) : option Z :=
  match rest with
  | [] => Some distance
  | q :: rest' =>
      h ← at_ hash i;
      n ← one_bits !! Z.to_nat (Z.lxor (U8.val q) (U8.val h));
      hamming_from rest' hash (i + 1) (distance + n)
  end.

Definition hamming_distance (query hash : hash_string) : option Z :=
  hamming_from query hash 0 0.

(** ** Reader: [HmSearchImpl::lookup] *)

Definition LookupResult : Type := hash_string * Z.
Definition LookupResultList := list LookupResult.

(** The loop of [lookup] over the candidate map. *)
Fixpoint lookup_loop (hm : HmSearchImpl) (query : hash_string)
    (reduced_error : Z) (candidates : CandidateMap)
    (result : LookupResultList) : option LookupResultList :=
  match candidates with
  | [] => Some result
  | (hash, cand) :: rest =>
      if valid_candidate hm cand then
        distance ← hamming_distance query hash;
        if decide (distance <= _max_error hm
                   /\ (reduced_error < 0 \/ distance <= reduced_error))
        then lookup_loop hm query reduced_error rest (result ++ [(hash, distance)])
        else lookup_loop hm query reduced_error rest result
      else lookup_loop hm query reduced_error rest result
  end.

(** [lookup]: the returned flag, [*error_msg] and [result] afterwards. *)
Definition lookup (hm : HmSearchImpl) (query : hash_string)
    (result : LookupResultList) (reduced_error : Z)
  : option (bool * string * LookupResultList) :=
  if decide (Z.of_nat (length query) <> size_t_of_int (_hash_bytes hm))
  then Some (false, InvalidHashLength, result)
  else match _db hm with
       | None => Some (false, Closed, result)
       | Some db =>
           candidates ← get_candidates hm db query [];
           result ← lookup_loop hm query reduced_error candidates result;
           Some (true, ""%string, result)
       end.

(** ** Hex codec *)

Definition chars_of_string (s : string) : list ascii := list_ascii_of_string s.

(** [s[pos]] on a [std::string], for [pos] up to [s.length()]. *)
Definition char_at (s : list ascii) (pos : nat) : ascii := default NUL (s !! pos).

(** The loop of [parse_hexhash] from iteration [i] on, [n] to go; [hash]
    holds [hash[0 .. i)]. *)
Fixpoint parse_hexhash_loop (hexhash : list ascii) (n i : nat)
    (hash : list byte) : hash_string :=
  match n with
  | O => hash
  | S n' =>
      let buf := [char_at hexhash (i * 2); char_at hexhash (i * 2 + 1); NUL] in
      let '(v, err) := strtoul buf 16 in
      if decide (char_at buf err <> NUL) then []
      else parse_hexhash_loop hexhash n' (i + 1) (hash ++ [U8.of_Z v])
  end.

Definition parse_hexhash (hexhash : string) : hash_string :=
  let len := (String.length hexhash / 2)%nat in
  parse_hexhash_loop (chars_of_string hexhash) len 0 [].

(** A hexadecimal digit as [%x] prints it. *)
Definition hex_digit (d : Z) : ascii :=
  ascii_of_nat (Z.to_nat (if decide (d < 10) then 48 + d else 87 + d)).

(** What [sprintf(p, "%02x", b)] writes at [p]: two digits and a NUL. *)
Definition sprintf_02x (b : byte) : list ascii :=
  [hex_digit (U8.val b / 16); hex_digit (U8.val b mod 16); NUL].

(** A [char] array whose cells may not have been written yet. *)
Definition buffer := list (option ascii).

(** Writing [data] at offset [off]; [None] when the array is too short. *)
Fixpoint write_at (buf : buffer) (off : nat) (data : list ascii)
  : option buffer :=
  match data with
  | [] => Some buf
  | c :: data' =>
      if decide (off < length buf)%nat
      then write_at (<[off := Some c]> buf) (S off) data'
      else None
  end.

(** Reading the C string at the start of an array: [None] when a cell
    that was never written, or the end of the array, comes before the
    terminator. *)
Fixpoint read_c_str (buf : buffer) : option (list ascii) :=
  match buf with
  | [] => None
  | None :: _ => None
  | Some c :: buf' =>
      if decide (c = NUL) then Some [] else (c ::.) <$> read_c_str buf'
  end.

(** The loop of [format_hexhash] from index [i] on; [rest] is the part
    of the hash from [i] on. *)
Fixpoint format_hexhash_loop (rest : list byte) (i : nat) (hex : buffer)
  : option buffer :=
  match rest with
  | [] => Some hex
  | b :: rest' =>
      hex ← write_at hex (2 * i) (sprintf_02x b);
      format_hexhash_loop rest' (i + 1) hex
  end.

(** [format_hexhash]: [hex] is declared without an initialiser, the loop
    fills it and [return hex] reads it up to the first NUL. *)
Definition format_hexhash (hash : hash_string) : option string :=
  let hex : buffer := replicate (length hash * 2 + 1) None in
  hex ← format_hexhash_loop hash 0 hex;
  string_of_list_ascii <$> read_c_str hex.


(** ** Notions the properties are stated with *)

(** What [init] does once the parameters are accepted: the store is
    created at [path], the two settings records are written; the call
    fails when something is already there. *)
Definition create_store (fs : leveldb.FS) (path : string) (B k : Z)
  : bool * string * leveldb.FS :=
  match fs !! path with
  | Some _ =>
      (false,
       leveldb.ToString
         (leveldb.InvalidArgument path "exists (error_if_exists is true)"),
       fs)
  | None =>
      (true, ""%string,
       <[path := <[bytes_of_string "_me" := bytes_of_string (format_u k)]>
                   (<[bytes_of_string "_hb" := bytes_of_string (format_u B)]> ∅)]>
         (<[path := ∅]> fs))
  end.

(** The parameters [init] accepts, as the [int]s the handle keeps. *)
Definition valid_params (B k : Z) : Prop :=
  0 < B < 2 ^ 31 /\ B mod 8 = 0 /\ 0 < k < B /\ k <= 518.

(** The parameters for which the [int] arithmetic of the constructor
    does not overflow and the number of partitions is positive. *)
Definition int_params (B k : Z) : Prop :=
  0 <= B <= 2 ^ 31 - 8 /\ 0 <= k <= 2 ^ 31 - 4.

(** Number of one bits of a byte value. *)
Definition popcount (z : Z) : Z :=
  foldr (fun j acc => Z.b2z (Z.testbit z (Z.of_nat j)) + acc) 0 (seq 0 8).

(** Hamming distance of two byte strings: the one bits of their
    byte-wise exclusive or. *)
Definition Hamming (q h : hash_string) : Z :=
  foldr Z.add 0 (zip_with (fun a b => popcount (Z.lxor (U8.val a) (U8.val b))) q h).

(** Bit [g] of a hash, bit 0 being the most significant bit of byte 0. *)
Definition hash_bit_at (hash : hash_string) (g : Z) : bool :=
  match hash !! Z.to_nat (g / 8) with
  | Some b => U8.bit b (g mod 8)
  | None => false
  end.

(** [key] is the key of one of the partitions of [hash]. *)
Definition slot_of (hm : HmSearchImpl) (hash : hash_string)
    (key : list byte) : Prop :=
  exists i psize, 0 <= i < _partitions hm
                  /\ get_partition_key hm hash i = Some (key, psize).

(** A run of successful inserts, oldest first. *)
Inductive inserts : HmSearchImpl -> list hash_string -> HmSearchImpl -> Prop :=
| inserts_nil hm : inserts hm [] hm
| inserts_cons hm hash msg hm' hashes hm'' :
    insert hm hash = Some (true, msg, hm') ->
    inserts hm' hashes hm'' ->
    inserts hm (hash :: hashes) hm''.

(** A partition key: a key that begins with ['P']. *)
Definition partition_key (key : list byte) : Prop := head key = Some "P"%byte.

(** Every key of a candidate map is a string of [_hash_bytes] bytes. *)
Definition candidates_sized (hm : HmSearchImpl) (candidates : CandidateMap)
  : Prop :=
  Forall (fun hc => Z.of_nat (length hc.1) = _hash_bytes hm) candidates.

(** Inserting a list of hashes, oldest first; [None] as soon as one
    insert does not succeed. *)
Fixpoint insert_all (hm : HmSearchImpl) (hashes : list hash_string)
  : option HmSearchImpl :=
  match hashes with
  | [] => Some hm
  | hash :: hashes' =>
      match insert hm hash with
      | Some (true, _, hm') => insert_all hm' hashes'
      | _ => None
      end
  end.

(** The store [init] leaves behind for [B = 8], [k = 2], and the handle
    [open] returns for it: the index of the scenarios. *)
Definition store_8_2 : DB :=
  <[bytes_of_string "_me" := bytes_of_string "2"]>
    (<[bytes_of_string "_hb" := bytes_of_string "8"]> ∅).

Definition index_8_2 : HmSearchImpl := HmSearchImpl_new (Some store_8_2) 8 2.

(** The index of scenario S5: 0xA5, 0xA4 and 0xE5 inserted in turn. *)
Definition index_S5 : HmSearchImpl :=
  default index_8_2 (insert_all index_8_2 [[xa5]; [xa4]; [xe5]]).

(** The two characters [%02x] prints for a byte, for each byte of a
    hash. *)
Definition hex_chars (hash : hash_string) : list ascii :=
  hash ≫= (fun b => [hex_digit (U8.val b / 16); hex_digit (U8.val b mod 16)]).

(** Every partition starts inside the hash: [(P - 1) * b <= B], so that
    no [psize] is negative. *)
Definition partitions_fit (B k : Z) : Prop :=
  ((k + 3) / 2 - 1) * ceil_div B ((k + 3) / 2) <= B.

(** Every partition slot of a store holds one hash. *)
Definition slots_sized (hm : HmSearchImpl) (db : DB) : Prop :=
  forall key v, partition_key key -> db !! key = Some v ->
    Z.of_nat (length v) = _hash_bytes hm.

(** The entry [candidates.find(hash)] would reach, walking the map the
    way [cm_update] does. *)
Fixpoint cm_find (candidates : CandidateMap) (hash : hash_string)
  : option Candidate :=
  match candidates with
  | [] => None
  | (h, c) :: rest =>
      match hash_compare hash h with
      | Eq => Some c
      | Lt => None
      | Gt => cm_find rest hash
      end
  end.

(** The record of a hash in a candidate map, a hash never seen having
    the record [Candidate()]. *)
Definition record_of (candidates : CandidateMap) (hash : hash_string)
  : Candidate :=
  default Candidate_new (cm_find candidates hash).

(** The value [v] of a slot holds a copy of [hash]: one of its
    [_hash_bytes]-sized chunks is [hash]. *)
Definition holds_copy (hm : HmSearchImpl) (v : list byte) (hash : hash_string)
  : Prop :=
  exists j : nat,
    (j * Z.to_nat (_hash_bytes hm) + Z.to_nat (_hash_bytes hm) <= length v)%nat
    /\ take (Z.to_nat (_hash_bytes hm)) (drop (j * Z.to_nat (_hash_bytes hm)) v)
       = hash.

(** What is known of a candidate record once its hash was met in [z]
    exact slots and [m] 1-variant slots, and possibly elsewhere. *)
Definition seen (c : Candidate) (z m : Z) : Prop :=
  0 <= z /\ 0 <= m
  /\ matches c >= z + m
  /\ (z >= 1 -> matches c = 1 -> first_match c = 0)
  /\ (z >= 1 -> z + m >= 2 -> matches c = 2 ->
      first_match c = 0 \/ second_match c = 0).

(** 1 when two hashes differ on bit [g], 0 when they agree. *)
Definition differ (X Y : hash_string) (g : Z) : Z :=
  Z.b2z (xorb (hash_bit_at X g) (hash_bit_at Y g)).

(** The number of bits among the [n] bits from [s] on at which two
    hashes differ. *)
Fixpoint differing (X Y : hash_string) (s : Z) (n : nat) : Z :=
  match n with
  | O => 0
  | S n' => differ X Y s + differing X Y (s + 1) n'
  end.

(** ** Notions of the further properties *)

(** The store after [insert] of 0xA5 into the index of the scenarios:
    its two slots, as the two [Put]s leave them. *)
Definition store_a5 : DB :=
  <[ ["P"%byte; x01; x05; x00] := [xa5] ]>
    (<[ ["P"%byte; x00; xa0; x00] := [xa5] ]> store_8_2).
(** The candidate map is in strictly increasing key order. *)
Definition candidates_sorted (candidates : CandidateMap) : Prop :=
  StronglySorted (fun a b => hash_compare a b = Lt) candidates.*1.
(** [hash] is the value of a partition slot of the store. *)
Definition in_slot (db : DB) (hash : hash_string) : Prop :=
  exists key, partition_key key /\ db !! key = Some hash.

(** A hexadecimal digit, in either case. *)
Definition is_hex (c : ascii) : bool := is_digit 16 c.

(** An upper-case letter as its lower-case letter; other characters
    unchanged. *)
Definition tolower (c : ascii) : ascii :=
  let n := nat_of_ascii c in
  if decide (65 <= n <= 90)%nat then ascii_of_nat (n + 32) else c.

(** The pairs of characters [strtoul] reads to the end in base 16: an
    empty string; one or two digits; a digit after white space or after
    a sign. *)
Definition pair_ok (c0 c1 : ascii) : bool :=
  bool_decide (c0 = NUL)
  || (is_hex c0 && (is_hex c1 || bool_decide (c1 = NUL)))
  || ((isspace c0 || bool_decide (c0 = "+"%char \/ c0 = "-"%char))
      && is_hex c1).

(** Pair [j] of a string. *)
Definition pair_at (cs : list ascii) (j : nat) : ascii * ascii :=
  (char_at cs (j * 2), char_at cs (j * 2 + 1)).

Definition all_ascii : list ascii := ascii_of_nat <$> seq 0 256.

(** * Properties *)

(** Closed facts are settled by evaluation. *)
Ltac by_compute :=
  vm_compute; repeat split; try discriminate; try reflexivity.

(** ** Validity rule *)

Lemma land_1_odd k : Z.land k 1 <> 0 <-> Z.odd k = true.
Proof.
  change 1 with (Z.ones 1). rewrite Z.land_ones by lia.
  rewrite Zodd_mod. change (2 ^ 1) with 2.
  destruct (Z.eqb_spec (k mod 2) 1) as [->|]; [done|].
  pose proof (Z.mod_pos_bound k 2). split; [lia|done].
Qed.

(** C3. For a candidate seen at least once whose tiers are 0 or 1,
    [valid_candidate] holds exactly when: for odd k, [matches >= 3], or
    [matches = 2] and one of the two recorded tiers is 0; for even k,
    [matches >= 2], or [matches = 1] and the first tier is 0. *)
Theorem valid_candidate_rule (hm : HmSearchImpl) (c : Candidate) :
  matches c >= 1 ->
  first_match c = 0 \/ first_match c = 1 ->
  second_match c = 0 \/ second_match c = 1 ->
  valid_candidate hm c = true <->
  if Z.odd (_max_error hm)
  then matches c >= 3
       \/ (matches c = 2 /\ (first_match c = 0 \/ second_match c = 0))
  else matches c >= 2 \/ (matches c = 1 /\ first_match c = 0).
Proof.
  intros Hm Hf Hs. unfold valid_candidate.
  pose proof (land_1_odd (_max_error hm)) as Hodd.
  destruct (Z.odd (_max_error hm)).
  - rewrite decide_True by (apply Hodd; done).
    repeat case_decide; split; intros; try done; lia.
  - rewrite decide_False by (intros ?%Hodd; done).
    repeat case_decide; split; intros; try done; lia.
Qed.

Lemma valid_candidate_rule_witness :
  valid_candidate (HmSearchImpl_new None 16 3)
    {| matches := 2; first_match := 1; second_match := 0 |} = true <->
  (2 >= 3 \/ (2 = 2 /\ (1 = 0 \/ 0 = 0))).
Proof.
  apply (valid_candidate_rule (HmSearchImpl_new None 16 3)
           {| matches := 2; first_match := 1; second_match := 0 |});
    simpl; lia.
Defined.

(** ** Parameter validation *)

Lemma land_7_mod k : Z.land k 7 = k mod 8.
Proof. change 7 with (Z.ones 3). by rewrite Z.land_ones by lia. Qed.

Lemma init_validate_spec B k :
  init_validate B k =
  if decide (B = 0 \/ B mod 8 <> 0) then Some InvalidHashBits
  else if decide (k = 0 \/ k >= B \/ k > 518) then Some InvalidMaxError
  else None.
Proof. unfold init_validate. rewrite land_7_mod. done. Qed.

Lemma init_accepted fs path B k :
  init_validate B k = None -> init fs path B k = create_store fs path B k.
Proof.
  intros Hv. unfold init, create_store, leveldb.Open. rewrite Hv. simpl.
  destruct (fs !! path); done.
Qed.

Lemma create_store_msg fs path B k :
  (create_store fs path B k).1.2 <> InvalidHashBits
  /\ (create_store fs path B k).1.2 <> InvalidMaxError.
Proof. unfold create_store. destruct (fs !! path); simpl; split; discriminate. Qed.

(** C7. [init] fails with InvalidHashBits exactly when [B = 0] or
    [B mod 8 <> 0]; with [B] valid it fails with InvalidMaxError exactly
    when [k = 0], [k >= B] or [k > 518]; with both valid the checks pass
    and [init] goes on to create the store. *)
Theorem init_validation (fs : leveldb.FS) (path : string) (B k : Z) :
  ((init fs path B k).1 = (false, InvalidHashBits)
     <-> (B = 0 \/ B mod 8 <> 0))
  /\ (~ (B = 0 \/ B mod 8 <> 0) ->
      ((init fs path B k).1 = (false, InvalidMaxError)
         <-> (k = 0 \/ k >= B \/ k > 518)))
  /\ (~ (B = 0 \/ B mod 8 <> 0) -> ~ (k = 0 \/ k >= B \/ k > 518) ->
      init_validate B k = None
      /\ init fs path B k = create_store fs path B k).
Proof.
  pose proof (init_validate_spec B k) as Hv.
  pose proof (create_store_msg fs path B k) as [Hm1 Hm2].
  destruct (decide (B = 0 \/ B mod 8 <> 0)) as [HB|HB].
  { split; [|split]; [|done..].
    unfold init. rewrite Hv. done. }
  destruct (decide (k = 0 \/ k >= B \/ k > 518)) as [Hk|Hk].
  { split; [|split]; [| |done].
    - unfold init. rewrite Hv. split; [discriminate|done].
    - intros _. unfold init. rewrite Hv. done. }
  rewrite (init_accepted _ _ _ _ Hv).
  split; [|split].
  - split; [|done]. intros E. destruct Hm1. by rewrite E.
  - intros _. split; [|done]. intros E. destruct Hm2. by rewrite E.
  - done.
Qed.

Lemma init_validation_witness :
  init_validate 8 2 = None
  /\ init ∅ "idx" 8 2 = create_store ∅ "idx" 8 2.
Proof.
  apply (init_validation ∅ "idx" 8 2); vm_compute; intros [H|H]; try done.
  destruct H; done.
Defined.

(** ** Guards of [insert] and [lookup] *)

Lemma hash_bytes_new db B k :
  0 <= B < 2 ^ 31 ->
  size_t_of_int (_hash_bytes (HmSearchImpl_new db B k)) = ceil_div B 8.
Proof.
  intros HB. unfold size_t_of_int, ceil_div. simpl.
  rewrite Z.quot_div_nonneg by lia.
  replace (B + 8 - 1) with (B + 7) by lia.
  apply Z.mod_small. split; [apply Z.div_pos; lia|].
  apply Z.div_lt_upper_bound; lia.
Qed.

Lemma close_new db B k :
  (close (HmSearchImpl_new db B k)).2 = HmSearchImpl_new None B k.
Proof. unfold close. by destruct db. Qed.

(** C8, as the code has it. On a handle built for parameters with
    [0 <= B <= 2^31 - 8] and [0 <= k <= 2^31 - 4], where the [int]
    arithmetic of the constructor does not overflow and [_hash_bytes]
    is [ceil(B/8)]: a hash or query whose length is not [ceil(B/8)]
    makes [insert] and [lookup] fail with InvalidHashLength, on an open
    handle and on a closed one; on a closed handle a hash or query of
    the right length makes them fail with Closed.  In both cases the
    handle and its store are left as they were and the result list is
    returned unchanged. *)
Theorem guarded_operations (db : option DB) (B k : Z) (hash : hash_string)
    (result : LookupResultList) (max_distance : Z) :
  int_params B k ->
  let hm := HmSearchImpl_new db B k in
  let closed := (close hm).2 in
  (Z.of_nat (length hash) <> ceil_div B 8 ->
     insert hm hash = Some (false, InvalidHashLength, hm)
     /\ lookup hm hash result max_distance
        = Some (false, InvalidHashLength, result)
     /\ insert closed hash = Some (false, InvalidHashLength, closed)
     /\ lookup closed hash result max_distance
        = Some (false, InvalidHashLength, result))
  /\ (Z.of_nat (length hash) = ceil_div B 8 ->
      _db closed = None
      /\ insert closed hash = Some (false, Closed, closed)
      /\ lookup closed hash result max_distance = Some (false, Closed, result)).
Proof.
  intros [HB Hk] hm closed. subst hm closed. rewrite close_new.
  unfold insert, lookup. rewrite !hash_bytes_new by lia.
  split; intros Hlen.
  - rewrite !decide_True by done. done.
  - rewrite !decide_False by (intros ?; done). done.
Qed.

Lemma guarded_operations_witness :
  insert (HmSearchImpl_new (Some ∅) 8 2) [xa5; xa5]
  = Some (false, InvalidHashLength, HmSearchImpl_new (Some ∅) 8 2).
Proof.
  assert (H : int_params 8 2) by (unfold int_params; lia).
  pose proof (guarded_operations (Some ∅) 8 2 [xa5; xa5] [] (-1) H) as [H1 _].
  apply H1. vm_compute. discriminate.
Defined.

(** C8, as stated, fails: a closed handle given a hash of the wrong
    length reports InvalidHashLength, not Closed, because the length is
    checked first. *)
Lemma closed_handle_reports_length_first :
  let closed := (close (HmSearchImpl_new (Some ∅) 8 2)).2 in
  _db closed = None
  /\ insert closed [xa5; xa5] = Some (false, InvalidHashLength, closed)
  /\ insert closed [xa5; xa5] <> Some (false, Closed, closed)
  /\ lookup closed [xa5; xa5] [] (-1) = Some (false, InvalidHashLength, [])
  /\ lookup closed [xa5; xa5] [] (-1) <> Some (false, Closed, []).
Proof. by_compute. Qed.

(** Past the bound of [int_params] the length guard is no longer a
    comparison with [ceil(B/8)].  [init] takes [hash_bits] as an
    [unsigned] and accepts 4294967288; [open] hands the value to the
    constructor as the [int] -8, [_hash_bytes] is 0, and the empty hash
    passes the length check. *)
Lemma hash_bits_past_int :
  init_validate 4294967288 2 = None
  /\ int_of_ulong 4294967288 = -8
  /\ _hash_bytes (HmSearchImpl_new None (-8) 2) = 0
  /\ ceil_div 4294967288 8 <> 0
  /\ insert (HmSearchImpl_new None (-8) 2) []
     = Some (false, Closed, HmSearchImpl_new None (-8) 2).
Proof. by_compute. Qed.

(** ** Popcount table and Hamming distance *)

Lemma U8_val_range b : 0 <= U8.val b < 256.
Proof. by destruct b. Qed.

Lemma U8_val_of_Z z : U8.val (U8.of_Z z) = z mod 256.
Proof.
  unfold U8.val, U8.of_Z.
  pose proof (Z.mod_pos_bound z 256 eq_refl) as Hz.
  destruct (Byte.of_N (Z.to_N (z mod 256))) as [b|] eqn:E.
  - apply Byte.to_of_N in E. rewrite E. lia.
  - apply Byte.of_N_None_iff in E. lia.
Qed.

Lemma U8_of_Z_val b : U8.of_Z (U8.val b) = b.
Proof. by destruct b. Qed.

Lemma lxor_byte_range a b : 0 <= a < 256 -> 0 <= b < 256 -> 0 <= Z.lxor a b < 256.
Proof.
  intros Ha Hb. split; [apply Z.lxor_nonneg; lia|].
  destruct (decide (Z.lxor a b = 0)) as [->|Hne]; [lia|].
  assert (0 < Z.lxor a b) by (pose proof (proj2 (Z.lxor_nonneg a b)); lia).
  change 256 with (2 ^ 8). apply Z.log2_lt_pow2; [done|].
  pose proof (Z.log2_lxor a b ltac:(lia) ltac:(lia)) as Hl.
  assert (Z.log2 a < 8).
  { destruct (decide (a = 0)) as [->|]; [done|]. apply Z.log2_lt_pow2; lia. }
  assert (Z.log2 b < 8).
  { destruct (decide (b = 0)) as [->|]; [done|]. apply Z.log2_lt_pow2; lia. }
  lia.
Qed.

Lemma one_bits_table :
  forallb (fun n => bool_decide (one_bits !! n = Some (popcount (Z.of_nat n))))
          (seq 0 256) = true.
Proof. vm_compute. reflexivity. Qed.

(** The table holds the popcount of each byte value. *)
Lemma one_bits_popcount z :
  0 <= z < 256 -> one_bits !! Z.to_nat z = Some (popcount z).
Proof.
  intros Hz. pose proof one_bits_table as Ht.
  rewrite forallb_forall in Ht.
  specialize (Ht (Z.to_nat z)).
  rewrite Z2Nat.id in Ht by lia.
  assert (In (Z.to_nat z) (seq 0 256)) as Hin%Ht by (apply in_seq; lia).
  by apply bool_decide_eq_true in Hin.
Qed.

Lemma at_app_here pre (x : byte) rest :
  at_ (pre ++ x :: rest) (Z.of_nat (length pre)) = Some x.
Proof.
  unfold at_. rewrite length_app. simpl.
  rewrite decide_True by lia. rewrite Nat2Z.id.
  by apply list_lookup_middle.
Qed.

Lemma hamming_from_spec q : forall pre h d,
  (length q <= length h)%nat ->
  hamming_from q (pre ++ h) (Z.of_nat (length pre)) d = Some (d + Hamming q h).
Proof.
  induction q as [|a q IH]; intros pre h d Hlen; simpl.
  - f_equal. unfold Hamming. simpl. lia.
  - destruct h as [|b h]; simpl in Hlen; [lia|].
    rewrite at_app_here. simpl.
    rewrite one_bits_popcount
      by (apply lxor_byte_range; apply U8_val_range). simpl.
    replace (Z.of_nat (length pre) + 1) with (Z.of_nat (length (pre ++ [b])))
      by (rewrite length_app; simpl; lia).
    rewrite (cons_middle b pre h), app_assoc.
    rewrite IH by lia. f_equal. unfold Hamming. simpl. lia.
Qed.

(** On strings of equal length [hamming_distance] is the Hamming
    distance. *)
Lemma hamming_distance_spec q h :
  length q = length h -> hamming_distance q h = Some (Hamming q h).
Proof.
  intros Hlen. unfold hamming_distance.
  pose proof (hamming_from_spec q [] h 0 ltac:(lia)) as E.
  exact E.
Qed.

(** ** Soundness of [lookup] *)

Section Sized.
Variable hm : HmSearchImpl.

Lemma cm_update_sized candidates hash f :
  candidates_sized hm candidates ->
  Z.of_nat (length hash) = _hash_bytes hm ->
  candidates_sized hm (cm_update candidates hash f).
Proof.
  unfold candidates_sized. intros Hc Hh.
  induction Hc as [|[h c] rest Hhc Hrest IH]; simpl.
  - by constructor.
  - destruct (hash_compare hash h); repeat constructor; done.
Qed.

Lemma add_hash_candidates_from_sized fuel : forall candidates match_ hashes n r,
  0 < _hash_bytes hm ->
  candidates_sized hm candidates ->
  add_hash_candidates_from hm fuel candidates match_ hashes n = Some r ->
  candidates_sized hm r.
Proof.
  induction fuel as [|fuel IH]; intros candidates match_ hashes n r Hpos Hc;
    simpl; case_decide; intros E; simplify_eq; try done.
  case_decide; [|done].
  eapply IH; [done| |exact E].
  apply cm_update_sized; [done|].
  rewrite length_take, length_drop, length_app. simpl. lia.
Qed.

Lemma add_hash_candidates_sized candidates match_ hashes r :
  candidates_sized hm candidates ->
  add_hash_candidates hm candidates match_ hashes = Some r ->
  candidates_sized hm r.
Proof.
  intros Hc. unfold add_hash_candidates. case_decide.
  - destruct hashes; intros; by simplify_eq.
  - apply add_hash_candidates_from_sized; [lia|done].
Qed.

Lemma probe_sized db key match_ candidates r :
  candidates_sized hm candidates ->
  probe hm db key match_ candidates = Some r ->
  candidates_sized hm r.
Proof.
  intros Hc. unfold probe. destruct (leveldb.Get db key) as [status hashes].
  destruct (leveldb.ok status).
  - by apply add_hash_candidates_sized.
  - intros; by simplify_eq.
Qed.

Lemma variants_loop_sized db pbyte n : forall pbit key candidates key' r,
  candidates_sized hm candidates ->
  variants_loop hm db pbyte n pbit key candidates = Some (key', r) ->
  candidates_sized hm r.
Proof.
  induction n as [|n IH]; intros pbit key candidates key' r Hc E; simpl in E.
  - by simplify_eq.
  - destruct (shl 1 (7 - Z.rem pbit 8)) as [f|]; [|done]. simpl in E.
    destruct (xor_at key _ _) as [key1|]; [|done]. simpl in E.
    destruct (probe hm db key1 1 candidates) as [c1|] eqn:Ep; [|done].
    simpl in E.
    destruct (xor_at key1 _ _) as [key2|]; [|done]. simpl in E.
    eapply IH; [|exact E]. eapply probe_sized; done.
Qed.

Lemma get_candidates_loop_sized db query n : forall i candidates r,
  candidates_sized hm candidates ->
  get_candidates_loop hm db query n i candidates = Some r ->
  candidates_sized hm r.
Proof.
  induction n as [|n IH]; intros i candidates r Hc E; simpl in E.
  - by simplify_eq.
  - destruct (get_partition_key hm query i) as [[key bits]|]; [|done].
    simpl in E.
    destruct (probe hm db key 0 candidates) as [c1|] eqn:Ep; [|done].
    simpl in E.
    destruct (variants_loop hm db _ _ _ key c1) as [[key' c2]|] eqn:Ev; [|done].
    simpl in E.
    eapply IH; [|exact E].
    eapply variants_loop_sized; [|exact Ev]. eapply probe_sized; done.
Qed.

End Sized.

Lemma lookup_loop_sound hm query m candidates : forall result result',
  Z.of_nat (length query) = _hash_bytes hm ->
  candidates_sized hm candidates ->
  lookup_loop hm query m candidates result = Some result' ->
  exists added,
    result' = result ++ added
    /\ Forall (fun r => length r.1 = length query
                        /\ r.2 = Hamming query r.1
                        /\ r.2 <= _max_error hm
                        /\ (0 <= m -> r.2 <= m)) added.
Proof.
  induction candidates as [|[hash cand] rest IH]; intros result result' Hq Hc E;
    simpl in E.
  - simplify_eq. exists []. by rewrite app_nil_r.
  - apply Forall_cons in Hc as [Hh Hc]. simpl in Hh.
    assert (length hash = length query) as Hlen by lia.
    destruct (valid_candidate hm cand); [|by apply IH].
    rewrite hamming_distance_spec in E by done. simpl in E.
    case_decide as Hd; [|by apply IH].
    apply IH in E as (added & -> & Hadded); [|done..].
    exists ((hash, Hamming query hash) :: added).
    rewrite <- app_assoc. split; [done|].
    constructor; [|done]. simpl. repeat split; try done; lia.
Qed.

(** C4. Every pair [(H, d)] that a successful [lookup] appends to the
    result list has [d] equal to the Hamming distance between the query
    and [H] (the popcount of their byte-wise exclusive or, [H] having
    the length of the query), [d <= k], and [d <= m] when the caller
    passed a cap [m >= 0]. *)
Theorem lookup_sound (db : option DB) (B k : Z) (query : hash_string)
    (result : LookupResultList) (m : Z) (msg : string)
    (result' : LookupResultList) :
  0 <= B < 2 ^ 31 ->
  lookup (HmSearchImpl_new db B k) query result m = Some (true, msg, result') ->
  exists added,
    result' = result ++ added
    /\ forall H d, (H, d) ∈ added ->
         length H = length query
         /\ d = Hamming query H
         /\ d <= k
         /\ (0 <= m -> d <= m).
Proof.
  intros HB. unfold lookup. rewrite hash_bytes_new by done.
  case_decide as Hlen; [done|].
  destruct (_db _) as [db'|]; [|done].
  destruct (get_candidates _ db' query []) as [candidates|] eqn:Ec; [|done].
  simpl.
  destruct (lookup_loop _ query m candidates result) as [r|] eqn:El; [|done].
  simpl. intros [= <- <-].
  assert (_hash_bytes (HmSearchImpl_new db B k) = ceil_div B 8) as Hhb.
  { rewrite <- (hash_bytes_new db B k HB). unfold size_t_of_int.
    symmetry. apply Z.mod_small.
    pose proof (hash_bytes_new db B k HB) as Hs. unfold size_t_of_int in Hs.
    simpl in *. rewrite Z.quot_div_nonneg by lia.
    split; [apply Z.div_pos; lia|]. apply Z.div_lt_upper_bound; lia. }
  apply lookup_loop_sound in El as (added & -> & Hadded).
  - exists added. split; [done|]. intros H d Hin.
    rewrite Forall_forall in Hadded. apply (Hadded (H, d)) in Hin. done.
  - rewrite Hhb. lia.
  - unfold get_candidates in Ec.
    eapply get_candidates_loop_sized; [|exact Ec]. constructor.
Qed.

(** ** The writer: what a slot holds *)

Lemma get_partition_key_set_db hm db hash i :
  get_partition_key (set_db hm db) hash i = get_partition_key hm hash i.
Proof. done. Qed.

Lemma slot_of_set_db hm db hash key :
  slot_of (set_db hm db) hash key <-> slot_of hm hash key.
Proof. done. Qed.

Lemma set_db_set_db hm db db' : set_db (set_db hm db) db' = set_db hm db'.
Proof. done. Qed.

(** The loop of [insert] never fails in the model, and leaves [hash]
    alone in each slot it visits. *)
Lemma insert_loop_spec hm hash n : forall i db ok msg db',
  insert_loop hm hash n i db = Some (ok, msg, db') ->
  ok = true
  /\ forall key,
      ((exists j psize, i <= j < i + Z.of_nat n
                        /\ get_partition_key hm hash j = Some (key, psize))
       /\ db' !! key = Some hash)
      \/ (~ (exists j psize, i <= j < i + Z.of_nat n
                             /\ get_partition_key hm hash j = Some (key, psize))
          /\ db' !! key = db !! key).
Proof.
  induction n as [|n IH]; intros i db ok msg db' E; simpl in E.
  - simplify_eq. split; [done|]. intros key. right.
    split; [|done]. intros (j & _ & ? & _). lia.
  - destruct (get_partition_key hm hash i) as [[key_i psize_i]|] eqn:Ek; [|done].
    simpl in E. apply IH in E as [-> Hrest]. split; [done|].
    intros key. destruct (Hrest key) as [[(j & psize & Hj & Hkey) Hl]|[Hno Hl]].
    + left. split; [|done]. exists j, psize. split; [lia|done].
    + destruct (decide (key = key_i)) as [->|Hne].
      * left. split; [exists i, psize_i; split; [lia|done]|].
        rewrite Hl. apply lookup_insert_eq.
      * right. split.
        -- intros (j & psize & Hj & Hkey).
           destruct (decide (j = i)) as [->|]; [congruence|].
           apply Hno. exists j, psize. split; [lia|done].
        -- rewrite Hl. by apply lookup_insert_ne.
Qed.

(** A successful [insert] stores exactly [hash] in each of its slots
    and touches no other key. *)
Lemma insert_spec hm hash msg hm' :
  insert hm hash = Some (true, msg, hm') ->
  Z.of_nat (length hash) = size_t_of_int (_hash_bytes hm)
  /\ exists db db',
      _db hm = Some db /\ hm' = set_db hm (Some db')
      /\ forall key,
          (slot_of hm hash key /\ db' !! key = Some hash)
          \/ (~ slot_of hm hash key /\ db' !! key = db !! key).
Proof.
  unfold insert. case_decide as Hlen; [done|].
  destruct (_db hm) as [db|]; [|done].
  destruct (insert_loop _ _ _ _ _) as [[[ok m] db']|] eqn:El; [|done].
  simpl. intros [= -> -> <-]. split; [lia|].
  exists db, db'. split; [done|]. split; [done|].
  apply insert_loop_spec in El as [_ Hkeys].
  intros key. destruct (Hkeys key) as [[(j & psize & Hj & Hkey) Hl]|[Hno Hl]].
  - left. split; [|done]. exists j, psize. split; [lia|done].
  - right. split; [|done]. intros (j & psize & Hj & Hkey).
    apply Hno. exists j, psize. split; [lia|done].
Qed.

Lemma inserts_spec hm hashes hm' :
  inserts hm hashes hm' ->
  forall db, _db hm = Some db ->
  exists db',
    hm' = set_db hm (Some db')
    /\ forall key v, db' !! key = Some v ->
        (db !! key = Some v /\ forall h, h ∈ hashes -> ~ slot_of hm h key)
        \/ (Z.of_nat (length v) = size_t_of_int (_hash_bytes hm)
            /\ exists older newer,
                hashes = older ++ v :: newer
                /\ slot_of hm v key
                /\ forall h, h ∈ newer -> ~ slot_of hm h key).
Proof.
  induction 1 as [hm|hm hash msg hm1 hashes hm2 Hins Hrest IH]; intros db Hdb.
  - exists db. split; [by destruct hm; simpl in *; subst|].
    intros key v Hv. left. split; [done|]. intros h Hh. by apply elem_of_nil in Hh.
  - apply insert_spec in Hins as (Hlen & db0 & db1 & Hdb0 & -> & Hkeys).
    rewrite Hdb in Hdb0. injection Hdb0 as <-.
    destruct (IH db1 eq_refl) as (db2 & -> & Hslots).
    exists db2. split; [done|].
    intros key v Hv. destruct (Hslots key v Hv) as [[Hv1 Hno]|Hnew].
    + destruct (Hkeys key) as [[Hslot Hl]|[Hnslot Hl]].
      * right. rewrite Hl in Hv1. injection Hv1 as <-.
        split; [done|]. exists [], hashes. split; [done|]. split; [done|].
        intros h Hh Hs. by apply (Hno h Hh).
      * left. rewrite <- Hl. split; [done|].
        intros h [->|Hh]%elem_of_cons; [done|].
        intros Hs. by apply (Hno h Hh).
    + right. destruct Hnew as (Hlenv & older & newer & -> & Hs & Hno).
      split; [done|]. exists (hash :: older), newer.
      split; [done|]. split; [done|].
      intros h Hh Hsl. by apply (Hno h Hh).
Qed.

(** Every key [get_partition_key] writes begins with ['P']. *)
Lemma get_partition_key_head hm hash i key psize :
  get_partition_key hm hash i = Some (key, psize) -> partition_key key.
Proof.
  unfold get_partition_key. case_decide; [done|].
  destruct (copy_bits _ _ _ _) as [rest|]; [|done].
  by intros [= <- _].
Qed.

(** A loop of [insert] that returns has computed the key of each
    partition it visits. *)
Lemma insert_loop_keys hm hash n : forall i (db : DB) r,
  insert_loop hm hash n i db = Some r ->
  forall j, i <= j < i + Z.of_nat n ->
    exists key psize, get_partition_key hm hash j = Some (key, psize).
Proof.
  induction n as [|n IH]; intros i db r E j Hj; [lia|].
  simpl in E.
  destruct (get_partition_key hm hash i) as [[key_i psize_i]|] eqn:Ek; [|done].
  simpl in E.
  destruct (decide (j = i)) as [->|Hne]; [by eauto|].
  eapply IH; [exact E|lia].
Qed.

(** A successful [insert] has a slot for each partition. *)
Lemma insert_slots hm hash msg hm' :
  insert hm hash = Some (true, msg, hm') ->
  forall i, 0 <= i < _partitions hm ->
    exists key psize, get_partition_key hm hash i = Some (key, psize).
Proof.
  unfold insert. case_decide as Hlen; [done|].
  destruct (_db hm) as [db|]; [|done].
  destruct (insert_loop _ _ _ _ _) as [r|] eqn:El; [|done].
  intros _ i Hi. eapply insert_loop_keys; [exact El|lia].
Qed.

(** After a run of successful inserts, every key that is a slot of one
    of the hashes holds the last of them that has it as a slot; the
    other keys are as they were. *)
Lemma inserts_writes hm hashes hm' :
  inserts hm hashes hm' ->
  forall db, _db hm = Some db ->
  exists db',
    hm' = set_db hm (Some db')
    /\ (forall older h newer key,
          hashes = older ++ h :: newer ->
          slot_of hm h key ->
          (forall h', h' ∈ newer -> ~ slot_of hm h' key) ->
          db' !! key = Some h)
    /\ (forall key,
          (exists older v newer,
             hashes = older ++ v :: newer /\ slot_of hm v key
             /\ (forall h', h' ∈ newer -> ~ slot_of hm h' key)
             /\ db' !! key = Some v)
          \/ ((forall h, h ∈ hashes -> ~ slot_of hm h key)
              /\ db' !! key = db !! key))
    /\ (forall h i, h ∈ hashes -> 0 <= i < _partitions hm ->
          exists key psize, get_partition_key hm h i = Some (key, psize)).
Proof.
  induction 1 as [hm|hm hash msg hm1 hashes hm2 Hins Hrest IH]; intros db Hdb.
  - exists db. split; [by destruct hm; simpl in *; subst|].
    split; [|split].
    + intros older h newer key E. by destruct older.
    + intros key. right. split; [|done].
      intros h Hh. by apply elem_of_nil in Hh.
    + intros h i Hh. by apply elem_of_nil in Hh.
  - pose proof (insert_slots _ _ _ _ Hins) as Hdef.
    apply insert_spec in Hins as (Hlen & db0 & db1 & Hdb0 & -> & Hkeys).
    rewrite Hdb in Hdb0. injection Hdb0 as <-.
    destruct (IH db1 eq_refl) as (db2 & -> & Hlast & Hcases & Hdefs).
    exists db2. split; [done|]. split; [|split].
    + intros older h newer key E Hslot Hno.
      destruct older as [|h0 older]; simpl in E.
      * injection E as <- <-.
        destruct (Hcases key) as [(o & v & n & -> & Hv & _)|[_ Hl]].
        { destruct (Hno v); [|done]. apply elem_of_app. right. by left. }
        rewrite Hl.
        destruct (Hkeys key) as [[_ Hl1]|[Hn _]]; [done|].
        by destruct Hn.
      * injection E as <- ->.
        by apply (Hlast older h newer key).
    + intros key.
      destruct (Hcases key) as [(o & v & n & -> & Hv & Hn & Hl)|[Hno Hl]].
      * left. by exists (hash :: o), v, n.
      * destruct (Hkeys key) as [[Hs Hl1]|[Hns Hl1]].
        -- left. exists [], hash, hashes. rewrite Hl. done.
        -- right. split; [|by rewrite Hl].
           intros h [->|Hh]%elem_of_cons; [done|by apply Hno].
    + intros h i [->|Hh]%elem_of_cons Hi.
      * by apply Hdef.
      * by apply (Hdefs h i).
Qed.

(** C6. On an index that starts without partition slots, after any
    run of successful inserts (a) every partition slot holds a value
    of exactly [ceil(B/8)] bytes: the most recently inserted hash one
    of whose partition keys is the slot's key, and nothing else; (b) the
    slots are there: every inserted hash has a key for each of the [P]
    partitions, and the store holds, under each key of an inserted
    hash, the last hash inserted with that key. *)
Theorem slot_holds_last_writer (db : DB) (B k : Z)
    (hashes : list hash_string) (hm' : HmSearchImpl) :
  int_params B k ->
  (forall key, partition_key key -> db !! key = None) ->
  inserts (HmSearchImpl_new (Some db) B k) hashes hm' ->
  let hm := HmSearchImpl_new (Some db) B k in
  exists db',
    hm' = HmSearchImpl_new (Some db') B k
    /\ (forall key v, partition_key key -> db' !! key = Some v ->
          Z.of_nat (length v) = ceil_div B 8
          /\ exists older newer,
              hashes = older ++ v :: newer
              /\ slot_of hm v key
              /\ forall h, h ∈ newer -> ~ slot_of hm h key)
    /\ (forall h i, h ∈ hashes -> 0 <= i < (k + 3) / 2 ->
          exists key psize,
            get_partition_key hm h i = Some (key, psize)
            /\ partition_key key
            /\ is_Some (db' !! key))
    /\ (forall older h newer key,
          hashes = older ++ h :: newer ->
          slot_of hm h key ->
          (forall h', h' ∈ newer -> ~ slot_of hm h' key) ->
          db' !! key = Some h).
Proof.
  intros [HB Hk] Hfresh Hins hm.
  destruct (inserts_spec _ _ _ Hins db eq_refl) as (db' & E & Hslots).
  destruct (inserts_writes _ _ _ Hins db eq_refl)
    as (db'' & E' & Hlast & Hcases & Hdefs).
  rewrite E in E'. injection E' as <-. subst hm'.
  exists db'. split; [done|]. split; [|split].
  - intros key v Hkey Hv.
    destruct (Hslots key v Hv) as [[Hold _]|(Hlen & Hrest)].
    + rewrite Hfresh in Hold; done.
    + rewrite hash_bytes_new in Hlen by lia. done.
  - intros h i Hh Hi.
    assert (_partitions hm = (k + 3) / 2) as HP
      by (simpl; apply Z.quot_div_nonneg; lia).
    destruct (Hdefs h i Hh ltac:(fold hm; lia)) as (key & psize & Ek).
    exists key, psize. split; [done|].
    split; [by eapply get_partition_key_head|].
    assert (slot_of hm h key) as Hslot
      by (exists i, psize; split; [lia|done]).
    destruct (Hcases key) as [(older & v & newer & _ & _ & _ & Hl)|[Hno _]].
    + by rewrite Hl.
    + by destruct (Hno h Hh).
  - exact Hlast.
Qed.

(** ** Key codec *)

Lemma testbit_mask bits sh p :
  0 <= bits -> 0 <= sh -> 0 <= p ->
  Z.testbit (Z.shiftl (Z.shiftl 1 bits - 1) sh) p
  = bool_decide (sh <= p < sh + bits).
Proof.
  intros Hb Hs Hp.
  rewrite Z.shiftl_spec by done.
  rewrite Z.shiftl_1_l, Z.sub_1_r, <- Z.ones_equiv.
  destruct (decide (sh <= p)) as [Hle|Hlt].
  - rewrite Z.testbit_ones by done.
    destruct (Z.leb_spec 0 (p - sh)), (Z.ltb_spec (p - sh) bits);
      simpl; symmetry;
      (apply bool_decide_eq_true_2 || apply bool_decide_eq_false_2); lia.
  - rewrite Z.testbit_neg_r by lia.
    symmetry. apply bool_decide_eq_false_2. lia.
Qed.

Lemma key_byte_bit hb mask t :
  0 <= t < 8 ->
  U8.bit (U8.of_Z (Z.land (U8.val hb) mask)) t
  = U8.bit hb t && Z.testbit mask (7 - t).
Proof.
  intros Ht. unfold U8.bit. rewrite U8_val_of_Z.
  change 256 with (2 ^ 8). rewrite Z.mod_pow2_bits_low by lia.
  apply Z.land_spec.
Qed.

Lemma at_bit hash byte x t :
  at_ hash byte = Some x -> 0 <= byte -> 0 <= t < 8 ->
  U8.bit x t = hash_bit_at hash (8 * byte + t).
Proof.
  unfold at_, hash_bit_at. intros Hat Hbyte Ht.
  replace ((8 * byte + t) / 8) with byte by lia.
  replace ((8 * byte + t) mod 8) with t by lia.
  case_decide as Hin.
  - by rewrite Hat.
  - case_decide as Hend; [|done]. injection Hat as <-.
    rewrite lookup_ge_None_2 by lia.
    unfold U8.bit. simpl. apply Z.testbit_0_l.
Qed.

Lemma at_defined hash pos :
  0 <= pos <= Z.of_nat (length hash) -> is_Some (at_ hash pos).
Proof.
  intros Hpos. unfold at_. case_decide.
  - apply lookup_lt_is_Some. lia.
  - rewrite decide_True by lia. done.
Qed.

(** The copy loop: it succeeds whenever the bits to copy lie inside the
    hash, and bit [t] of the [j]-th byte it produces is the hash bit at
    the same place, [8 * (hash_bit / 8 + j) + t], if that place is one
    of the [bits_left] ones from [hash_bit] on, and 0 otherwise. *)
Lemma copy_bits_spec hash n : forall hash_bit bits_left,
  0 <= hash_bit -> 0 <= bits_left ->
  hash_bit + bits_left <= 8 * Z.of_nat (length hash) ->
  exists key,
    copy_bits hash n hash_bit bits_left = Some key
    /\ length key = n
    /\ forall (j : nat) t, (j < n)%nat -> 0 <= t < 8 ->
        exists kb,
          key !! j = Some kb
          /\ U8.bit kb t
             = bool_decide (hash_bit <= 8 * (hash_bit / 8 + Z.of_nat j) + t
                            < hash_bit + bits_left)
               && hash_bit_at hash (8 * (hash_bit / 8 + Z.of_nat j) + t).
Proof.
  induction n as [|n IH]; intros hb bl Hhb Hbl Hend.
  - exists []. split; [done|]. split; [done|]. intros; lia.
  - simpl. rewrite Z.quot_div_nonneg, Z.rem_mod_nonneg by lia.
    set (bit := hb mod 8).
    set (bits := if decide (8 - bit > bl) then bl else 8 - bit).
    assert (0 <= bit < 8) as Hbit by (subst bit; lia).
    assert (0 <= bits <= 8 - bit /\ bits <= bl) as Hbits
      by (subst bits; case_decide; lia).
    assert (hb = 8 * (hb / 8) + bit) as Hdec by (subst bit; lia).
    assert (bits <> 8 - bit -> bits = bl) as Hpartial
      by (subst bits; case_decide; lia).
    clearbody bits bit.
    destruct (at_defined hash (hb / 8)) as [x Hat]; [lia|].
    rewrite Hat. simpl. unfold shl.
    rewrite decide_True by lia. simpl.
    rewrite decide_True by lia. simpl.
    destruct (IH (hb + bits) (bl - bits)) as (rest & -> & Hlen & Hrest);
      [lia..|].
    simpl. eexists. split; [done|]. split; [simpl; lia|].
    intros [|j] t Hj Ht.
    + eexists. split; [done|].
      rewrite key_byte_bit by done.
      rewrite testbit_mask by lia.
      rewrite (at_bit hash (hb / 8) x t Hat) by lia.
      rewrite andb_comm. f_equal.
      * apply bool_decide_ext. lia.
      * f_equal. lia.
    + destruct (Hrest j t ltac:(lia) Ht) as (kb & Hkb & Hkbit).
      exists kb. split; [done|]. rewrite Hkbit.
      destruct (decide (bits = 8 - bit)) as [Hfull|Hpart].
      * replace ((hb + bits) / 8) with (hb / 8 + 1) by lia.
        replace (8 * (hb / 8 + 1 + Z.of_nat j) + t)
          with (8 * (hb / 8 + Z.of_nat (S j)) + t) by lia.
        f_equal. apply bool_decide_ext. lia.
      * assert (bits = bl) as Hbl' by auto.
        rewrite !bool_decide_eq_false_2; [done| |]; lia.
Qed.

Lemma partitions_new db B k :
  0 < k -> _partitions (HmSearchImpl_new db B k) = (k + 3) / 2.
Proof. intros Hk. simpl. apply Z.quot_div_nonneg; lia. Qed.

Lemma ceil_div_pos a p : 0 < a -> 0 < p -> 0 < ceil_div a p.
Proof.
  intros Ha Hp. unfold ceil_div.
  enough (1 <= (a + p - 1) / p) by lia.
  apply Z.div_le_lower_bound; lia.
Qed.




(** The partition number is stored in one byte, and [k <= 518] allows up
    to 260 partitions: with [B = 512], [k = 511] partition 256 gets the
    number of partition 0. *)
Lemma partition_number_wraps :
  valid_params 512 511
  /\ 0 <= 256 < _partitions (HmSearchImpl_new None 512 511)
  /\ (fst <$> get_partition_key (HmSearchImpl_new None 512 511)
                                (replicate 64 x00) 256) ≫= (.!! 1%nat)
     = Some x00.
Proof. by_compute. Qed.

(** A partition that would start past the end of the hash has a negative
    [psize], and the copy loop shifts by a negative count. *)
Lemma partition_past_the_end :
  valid_params 16 11
  /\ 0 <= 6 < _partitions (HmSearchImpl_new None 16 11)
  /\ 16 - 6 * _partition_bits (HmSearchImpl_new None 16 11) = -2
  /\ get_partition_key (HmSearchImpl_new None 16 11) [xff; xff] 6 = None.
Proof. by_compute. Qed.

(** ** The scenarios *)

Lemma insert_all_inserts hashes : forall hm hm',
  insert_all hm hashes = Some hm' -> inserts hm hashes hm'.
Proof.
  induction hashes as [|hash hashes IH]; intros hm hm' E; simpl in E.
  - injection E as <-. constructor.
  - destruct (insert hm hash) as [[[[] msg] hm1]|] eqn:Ei; [|done..].
    econstructor; [exact Ei|]. by apply IH.
Qed.

(** C1 on the code: scenario S5.  After inserting 0xA5, 0xA4 and 0xE5,
    the stored hash 0xA5 is at distance 0 from the query 0xA5, yet
    [lookup] returns only 0xA4 and 0xE5: the slots of 0xA5 were
    overwritten by the later inserts. *)
Theorem recall_S5 :
  exists hm,
    insert_all index_8_2 [[xa5]; [xa4]; [xe5]] = Some hm
    /\ Hamming [xa5] [xa5] = 0
    /\ lookup hm [xa5] [] (-1)
       = Some (true, ""%string, [([xa4], 1); ([xe5], 1)])
    /\ ([xa5], 0) ∉ [([xa4], 1); ([xe5], 1)].
Proof.
  eexists. split; [vm_compute; reflexivity|].
  split; [reflexivity|]. split; [vm_compute; reflexivity|].
  intros H. repeat (apply elem_of_cons in H as [H|H]; [discriminate|]).
  by apply elem_of_nil in H.
Qed.

(** C2 on the code: after inserting 0xA5 and then 0xA4, the slot of
    partition 0 of 0xA5 (which is also that of 0xA4) holds 0xA4 alone:
    the [Put] replaced 0xA5. *)
Theorem insert_replaces_slot :
  exists hm db key,
    insert_all index_8_2 [[xa5]; [xa4]] = Some hm
    /\ _db hm = Some db
    /\ get_partition_key hm [xa5] 0 = Some (key, 4)
    /\ get_partition_key hm [xa4] 0 = Some (key, 4)
    /\ db !! key = Some [xa4].
Proof.
  eexists _, _, _. split; [vm_compute; reflexivity|].
  split; [reflexivity|]. split; [vm_compute; reflexivity|].
  split; [vm_compute; reflexivity|]. vm_compute. reflexivity.
Qed.

Lemma store_8_2_fresh key : partition_key key -> store_8_2 !! key = None.
Proof.
  intros Hkey. unfold store_8_2.
  rewrite !lookup_insert_ne; [apply lookup_empty|intros <-; discriminate..].
Qed.

Lemma lookup_sound_witness :
  exists added,
    [([xa4], 1); ([xe5], 1)] = [] ++ added
    /\ forall H d, (H, d) ∈ added ->
         length H = length [xa5]
         /\ d = Hamming [xa5] H /\ d <= 2 /\ (0 <= -1 -> d <= -1).
Proof.
  apply (lookup_sound (_db index_S5) 8 2 [xa5] [] (-1) ""%string).
  - lia.
  - vm_compute. reflexivity.
Defined.

Lemma slot_holds_last_writer_witness :
  let hm := HmSearchImpl_new (Some store_8_2) 8 2 in
  exists db',
    index_S5 = HmSearchImpl_new (Some db') 8 2
    /\ (forall key v, partition_key key -> db' !! key = Some v ->
          Z.of_nat (length v) = ceil_div 8 8
          /\ exists older newer,
              [[xa5]; [xa4]; [xe5]] = older ++ v :: newer
              /\ slot_of hm v key
              /\ forall h, h ∈ newer -> ~ slot_of hm h key)
    /\ (forall h i, h ∈ [[xa5]; [xa4]; [xe5]] -> 0 <= i < (2 + 3) / 2 ->
          exists key psize,
            get_partition_key hm h i = Some (key, psize)
            /\ partition_key key
            /\ is_Some (db' !! key))
    /\ (forall older h newer key,
          [[xa5]; [xa4]; [xe5]] = older ++ h :: newer ->
          slot_of hm h key ->
          (forall h', h' ∈ newer -> ~ slot_of hm h' key) ->
          db' !! key = Some h).
Proof.
  apply (slot_holds_last_writer store_8_2 8 2 [[xa5]; [xa4]; [xe5]] index_S5).
  - unfold int_params. lia.
  - exact store_8_2_fresh.
  - apply insert_all_inserts. vm_compute. reflexivity.
Defined.

(** ** Hex codec *)

#[local] Arguments hex_chars : simpl never.

Lemma write_at_app data : forall pre cells off,
  length pre = off ->
  (length data <= length cells)%nat ->
  write_at (pre ++ cells) off data
  = Some (pre ++ (Some <$> data) ++ drop (length data) cells).
Proof.
  induction data as [|c data IH]; intros pre cells off Hpre Hlen; simpl.
  - by rewrite drop_0.
  - destruct cells as [|x cells]; simpl in Hlen; [lia|].
    rewrite decide_True by (rewrite length_app; simpl; lia).
    subst off.
    replace (<[length pre := Some c]> (pre ++ x :: cells))
      with ((pre ++ [Some c]) ++ cells).
    2:{ rewrite <- app_assoc. simpl.
        rewrite insert_app_r_alt by lia.
        by rewrite Nat.sub_diag. }
    rewrite IH by (rewrite ?length_app; simpl; lia).
    by rewrite <- app_assoc.
Qed.

Lemma format_hexhash_loop_spec rest : forall i pre cells,
  rest <> [] ->
  length pre = (2 * i)%nat ->
  length cells = (length rest * 2 + 1)%nat ->
  format_hexhash_loop rest i (pre ++ cells)
  = Some (pre ++ (Some <$> hex_chars rest) ++ [Some NUL]).
Proof.
  induction rest as [|b rest IH]; intros i pre cells Hne Hpre Hcells; [done|].
  cbn [format_hexhash_loop].
  rewrite write_at_app by (simpl in *; lia). simpl.
  destruct cells as [|x1 [|x2 [|x3 cells]]]; simpl in Hcells; try lia.
  simpl. rewrite drop_0.
  destruct rest as [|b' rest].
  - destruct cells; [|simpl in Hcells; lia]. done.
  - match goal with
    | |- format_hexhash_loop _ _ (pre ++ ?a :: ?b :: ?t) = _ =>
        replace (pre ++ a :: b :: t) with ((pre ++ [a; b]) ++ t)
          by (by rewrite <- app_assoc)
    end.
    rewrite IH; [|done|rewrite length_app; simpl; lia|simpl in *; lia].
    by rewrite <- app_assoc.
Qed.

Lemma hex_digit_not_NUL d : 0 <= d < 16 -> hex_digit d <> NUL.
Proof.
  intros Hd.
  assert (d ∈ Z.of_nat <$> seq 0 16) as Hin.
  { apply list_elem_of_fmap. exists (Z.to_nat d). split; [lia|].
    apply elem_of_seq. lia. }
  simpl in Hin. set_unfold. destruct_or!; subst; done.
Qed.

Lemma hex_chars_cons b hash :
  hex_chars (b :: hash)
  = hex_digit (U8.val b / 16) :: hex_digit (U8.val b mod 16) :: hex_chars hash.
Proof. done. Qed.

Lemma hex_chars_app h1 h2 : hex_chars (h1 ++ h2) = hex_chars h1 ++ hex_chars h2.
Proof. apply bind_app. Qed.

Lemma length_hex_chars hash : length (hex_chars hash) = (length hash * 2)%nat.
Proof.
  induction hash as [|b hash IH]; [done|].
  rewrite hex_chars_cons. simpl. lia.
Qed.

Lemma read_c_str_hex hash :
  read_c_str ((Some <$> hex_chars hash) ++ [Some NUL]) = Some (hex_chars hash).
Proof.
  induction hash as [|b hash IH]; [done|].
  rewrite hex_chars_cons. pose proof (U8_val_range b).
  cbn [fmap list_fmap app read_c_str].
  rewrite !decide_False by (apply hex_digit_not_NUL; lia).
  fold (@fmap list _ _ _ Some (hex_chars hash)).
  by rewrite IH.
Qed.

(** On a hash of at least one byte [format_hexhash] yields two
    lowercase digits per byte. *)
Lemma format_hexhash_spec hash :
  hash <> [] ->
  format_hexhash hash = Some (string_of_list_ascii (hex_chars hash)).
Proof.
  intros Hne. unfold format_hexhash.
  pose proof (format_hexhash_loop_spec hash 0 []
                (replicate (length hash * 2 + 1) None) Hne eq_refl
                (length_replicate _ _)) as E.
  rewrite !app_nil_l in E. rewrite E.
  simpl. by rewrite read_c_str_hex.
Qed.

Lemma strtoul_hex_pair b :
  strtoul [hex_digit (U8.val b / 16); hex_digit (U8.val b mod 16); NUL] 16
  = (U8.val b, 2%nat).
Proof. destruct b; vm_compute; reflexivity. Qed.

Lemma char_at_hex_chars done_ b rest :
  char_at (hex_chars (done_ ++ b :: rest)) (length done_ * 2)
  = hex_digit (U8.val b / 16)
  /\ char_at (hex_chars (done_ ++ b :: rest)) (length done_ * 2 + 1)
     = hex_digit (U8.val b mod 16).
Proof.
  unfold char_at. rewrite hex_chars_app, hex_chars_cons.
  rewrite !lookup_app_r by (rewrite length_hex_chars; lia).
  rewrite length_hex_chars.
  replace (length done_ * 2 - length done_ * 2)%nat with 0%nat by lia.
  replace (length done_ * 2 + 1 - length done_ * 2)%nat with 1%nat by lia.
  done.
Qed.

Lemma parse_hexhash_loop_spec rest : forall done_ acc,
  parse_hexhash_loop (hex_chars (done_ ++ rest)) (length rest) (length done_) acc
  = acc ++ rest.
Proof.
  induction rest as [|b rest IH]; intros done_ acc.
  - simpl. by rewrite app_nil_r.
  - cbn [length parse_hexhash_loop].
    destruct (char_at_hex_chars done_ b rest) as [-> ->].
    rewrite strtoul_hex_pair.
    rewrite decide_False by (intros Hne; by apply Hne).
    rewrite U8_of_Z_val.
    replace (length done_ + 1)%nat with (length (done_ ++ [b]))
      by (rewrite length_app; done).
    rewrite (cons_middle b done_ rest), app_assoc, IH.
    by rewrite <- app_assoc.
Qed.

Lemma length_string_of_list_ascii cs :
  String.length (string_of_list_ascii cs) = length cs.
Proof. induction cs as [|c cs IH]; simpl; [done|by rewrite IH]. Qed.

(** X23. Round trip of the hex codec, for every hash that has at least one
    byte. *)
Lemma hex_round_trip_nonempty hash :
  hash <> [] ->
  exists s, format_hexhash hash = Some s /\ parse_hexhash s = hash.
Proof.
  intros Hne. eexists. split; [by apply format_hexhash_spec|].
  unfold parse_hexhash, chars_of_string.
  rewrite length_string_of_list_ascii, list_ascii_of_string_of_list_ascii.
  rewrite length_hex_chars, Nat.div_mul by done.
  apply (parse_hexhash_loop_spec hash [] []).
Qed.

(** C9 on the code: for the empty hash [format_hexhash] declares
    [char hex[1]], writes nothing to it and returns the C string it
    finds there: the result is whatever the array held, not the empty
    string, and the round trip through [parse_hexhash] is not
    determined. *)
Theorem format_hexhash_empty :
  format_hexhash_loop [] 0 (replicate (length (@nil byte) * 2 + 1) None)
  = Some [None]
  /\ read_c_str [None] = None
  /\ format_hexhash [] = None
  /\ parse_hexhash <$> format_hexhash [] <> Some [].
Proof. by_compute. Qed.

(** C10 on the code: a string of odd length is cut to its even prefix,
    not rejected, and [strtoul] lets white space, a sign and a short
    number through. *)
Theorem parse_hexhash_accepts :
  parse_hexhash "abc" = [xab]
  /\ parse_hexhash "a50" = [xa5]
  /\ parse_hexhash " 1" = [x01]
  /\ parse_hexhash "-1" = [xff]
  /\ parse_hexhash "+f" = [x0f].
Proof. by_compute. Qed.

(** ** [insert] and [lookup] return *)

Section Total.
Variables (db : option DB) (B k : Z).
Hypothesis Hvalid : valid_params B k.
Hypothesis Hfit : partitions_fit B k.

Let hm := HmSearchImpl_new db B k.
Let P := (k + 3) / 2.
Let b := ceil_div B P.

Lemma geometry :
  _partitions hm = P /\ _partition_bits hm = b
  /\ _partition_bytes hm = (b + 7) / 8 + 1
  /\ _hash_bytes hm = B / 8
  /\ 0 < P /\ 0 < b /\ (P - 1) * b <= B.
Proof.
  destruct Hvalid as (HB & HB8 & Hk & Hk518).
  assert (_partitions hm = P) as HP by (apply partitions_new; lia).
  assert (_partition_bits hm = b) as Hb.
  { change (_partition_bits hm) with (ceil_div B (_partitions hm)).
    by rewrite HP. }
  assert (0 < P) by (subst P; lia).
  assert (0 < b) by (apply ceil_div_pos; lia).
  repeat split; try done.
  - change (_partition_bytes hm) with (Z.quot (_partition_bits hm + 7) 8 + 1).
    rewrite Hb, Z.quot_div_nonneg by lia. done.
  - simpl. rewrite Z.quot_div_nonneg by lia. lia.
Qed.

Lemma partition_start i : 0 <= i < P -> 0 <= i * b <= B.
Proof.
  destruct geometry as (_ & _ & _ & _ & HP & Hb & Hf). intros Hi. split.
  - apply Z.mul_nonneg_nonneg; lia.
  - trans ((P - 1) * b); [|done]. apply Z.mul_le_mono_nonneg_r; lia.
Qed.

(** [get_partition_key] is defined on every partition. *)
Lemma get_partition_key_defined hash i :
  Z.of_nat (length hash) = B / 8 ->
  0 <= i < P ->
  exists key,
    get_partition_key hm hash i = Some (key, Z.min b (B - i * b))
    /\ Z.of_nat (length key) = (b + 7) / 8 + 3
    /\ partition_key key.
Proof.
  intros Hlen Hi.
  destruct geometry as (HP & Hb & Hpb & _ & HPpos & Hbpos & _).
  destruct (partition_start i Hi) as [Hs0 Hs].
  destruct Hvalid as (HB & HB8 & _).
  unfold get_partition_key. change (_hash_bits hm) with B. rewrite Hb, Hpb.
  generalize dependent (i * b). intros s Hs0 Hs.
  rewrite decide_False by lia.
  assert ((if decide (B - s > b) then b else B - s) = Z.min b (B - s)) as ->
    by (case_decide; lia).
  destruct (copy_bits_spec hash (Z.to_nat ((b + 7) / 8 + 1)) s (Z.min b (B - s)))
    as (rest & -> & Hrlen & _); [lia..|].
  simpl. eexists. split; [done|]. split; [simpl; lia|done].
Qed.


End Total.


Lemma add_hash_candidates_one hm candidates match_ hashes :
  0 < _hash_bytes hm ->
  Z.of_nat (length hashes) = _hash_bytes hm ->
  is_Some (add_hash_candidates hm candidates match_ hashes).
Proof.
  intros Hpos Hlen. unfold add_hash_candidates.
  rewrite decide_False by lia.
  destruct (length hashes) as [|fuel] eqn:El; [lia|].
  simpl. rewrite El.
  rewrite decide_True by lia. rewrite decide_True by lia.
  destruct fuel; simpl; rewrite El; rewrite decide_False by lia; done.
Qed.

Lemma probe_succeeds hm db key match_ candidates :
  0 < _hash_bytes hm -> slots_sized hm db -> partition_key key ->
  is_Some (probe hm db key match_ candidates).
Proof.
  intros Hpos Hdb Hkey. unfold probe, leveldb.Get.
  destruct (db !! key) as [v|] eqn:Ev; simpl; [|done].
  apply add_hash_candidates_one; [done|]. by apply (Hdb key).
Qed.

Lemma xor_at_defined key idx flip :
  1 <= idx < Z.of_nat (length key) ->
  exists key',
    xor_at key idx flip = Some key'
    /\ length key' = length key
    /\ head key' = head key.
Proof.
  intros Hidx. unfold xor_at. rewrite decide_True by lia.
  destruct (lookup_lt_is_Some_2 key (Z.to_nat idx)) as [x Hx]; [lia|].
  rewrite Hx. simpl. eexists. split; [done|].
  split; [apply length_insert|].
  destruct key as [|x0 key]; [done|].
  destruct (Z.to_nat idx) eqn:E; [lia|done].
Qed.

Lemma variants_loop_succeeds hm db pbyte L n :
  forall pbit key candidates,
  0 < _hash_bytes hm -> slots_sized hm db ->
  partition_key key -> Z.of_nat (length key) = L ->
  0 <= pbit ->
  (forall p, pbit <= p < pbit + Z.of_nat n -> 0 <= p / 8 - pbyte < L - 2) ->
  is_Some (variants_loop hm db pbyte n pbit key candidates).
Proof.
  induction n as [|n IH]; intros pbit key candidates Hpos Hdb Hkey Hlen Hp Hidx;
    simpl; [done|].
  unfold shl. rewrite decide_True by lia. simpl.
  rewrite Z.quot_div_nonneg by lia.
  specialize (Hidx pbit ltac:(lia)) as Hi.
  destruct (xor_at_defined key (pbit / 8 - pbyte + 2)
              (U8.of_Z (Z.shiftl 1 (7 - Z.rem pbit 8))))
    as (key1 & -> & Hlen1 & Hhead1); [lia|].
  simpl.
  destruct (probe_succeeds hm db key1 1 candidates) as [c1 ->];
    [done|done|by unfold partition_key; rewrite Hhead1|].
  simpl.
  destruct (xor_at_defined key1 (pbit / 8 - pbyte + 2)
              (U8.of_Z (Z.shiftl 1 (7 - Z.rem pbit 8))))
    as (key2 & -> & Hlen2 & Hhead2); [lia|].
  simpl. apply IH; try done.
  - unfold partition_key. by rewrite Hhead2, Hhead1.
  - lia.
  - lia.
  - intros p Hp'. apply Hidx. lia.
Qed.

Lemma lookup_loop_succeeds hm query m candidates : forall result,
  Z.of_nat (length query) = _hash_bytes hm ->
  candidates_sized hm candidates ->
  is_Some (lookup_loop hm query m candidates result).
Proof.
  induction candidates as [|[hash cand] rest IH]; intros result Hq Hc; simpl.
  - done.
  - apply Forall_cons in Hc as [Hh Hc]. simpl in Hh.
    destruct (valid_candidate hm cand); [|by apply IH].
    rewrite hamming_distance_spec by lia. simpl.
    case_decide; by apply IH.
Qed.

Section LookupTotal.
Variables (db0 : option DB) (B k : Z).
Hypothesis Hvalid : valid_params B k.
Hypothesis Hfit : partitions_fit B k.

Let hm := HmSearchImpl_new db0 B k.
Let P := (k + 3) / 2.
Let b := ceil_div B P.

Lemma get_candidates_loop_succeeds db query n : forall i candidates,
  slots_sized hm db ->
  Z.of_nat (length query) = B / 8 ->
  0 <= i -> i + Z.of_nat n <= P ->
  is_Some (get_candidates_loop hm db query n i candidates).
Proof.
  destruct (geometry db0 B k Hvalid Hfit)
    as (HP & Hb & Hpb & Hhb & HPpos & Hbpos & _).
  pose proof (get_partition_key_defined db0 B k Hvalid Hfit query) as Hgpk.
  pose proof (partition_start db0 B k Hvalid Hfit) as Hstart.
  assert (0 < B / 8) as Hpos by (destruct Hvalid as (? & ? & _); lia).
  rewrite <- Hhb in Hpos.
  fold hm P b in HP, Hb, Hpb, Hhb, HPpos, Hbpos, Hgpk, Hstart, Hpos.
  clearbody hm P b.
  induction n as [|n IH]; intros i candidates Hdb Hlen Hi Hn; simpl; [done|].
  destruct (Hgpk i Hlen) as (key & -> & Hklen & Hpk); [lia|].
  simpl.
  destruct (probe_succeeds hm db key 0 candidates) as [c1 ->]; [done..|].
  simpl. rewrite Hb.
  destruct (Hstart i) as [Hs0 Hs]; [lia|].
  destruct (variants_loop_succeeds hm db (Z.quot (i * b) 8) ((b + 7) / 8 + 3)
              (Z.to_nat (Z.min b (B - i * b))) (i * b) key c1)
    as [[key' c2] ->]; try done.
  { rewrite Z.quot_div_nonneg by lia.
    generalize dependent (i * b). intros s. intros. lia. }
  simpl. apply IH; [done|done|lia..].
Qed.

End LookupTotal.

(** On an open handle whose partitions all start inside the hash and
    whose slots hold one hash each (which the inserts keep so),
    [lookup] of a query of the right length succeeds. *)
Lemma lookup_succeeds (db : DB) (B k : Z) (query : hash_string)
    (result : LookupResultList) (m : Z) :
  valid_params B k -> partitions_fit B k ->
  slots_sized (HmSearchImpl_new (Some db) B k) db ->
  Z.of_nat (length query) = ceil_div B 8 ->
  exists result',
    lookup (HmSearchImpl_new (Some db) B k) query result m
    = Some (true, ""%string, result').
Proof.
  intros Hv Hfit Hdb Hlen.
  destruct (geometry (Some db) B k Hv Hfit) as (HP & _ & _ & Hhb & _).
  pose proof Hv as (HB & HB8 & Hk & _).
  assert (ceil_div B 8 = B / 8) as Hc by (unfold ceil_div; lia).
  unfold lookup. rewrite hash_bytes_new by lia.
  rewrite decide_False by (intros Hne; by apply Hne).
  change (_db _) with (Some db). unfold get_candidates.
  destruct (get_candidates_loop_succeeds (Some db) B k Hv Hfit db query
              (Z.to_nat (_partitions (HmSearchImpl_new (Some db) B k))) 0 [])
    as [candidates Hcand]; [done|lia|lia|rewrite HP; lia|].
  rewrite Hcand. simpl.
  destruct (lookup_loop_succeeds (HmSearchImpl_new (Some db) B k) query m
              candidates result) as [result' ->].
  - rewrite Hhb. lia.
  - eapply get_candidates_loop_sized; [|exact Hcand]. constructor.
  - simpl. by eexists.
Qed.

(** ** The candidate map *)

Lemma U8_val_inj a b : U8.val a = U8.val b -> a = b.
Proof. intros E. by rewrite <- (U8_of_Z_val a), E, U8_of_Z_val. Qed.

Lemma hash_compare_eq a : forall b, hash_compare a b = Eq <-> a = b.
Proof.
  induction a as [|x a IH]; intros [|y b]; simpl; try done.
  destruct (Z.compare_spec (U8.val x) (U8.val y)) as [E|Hlt|Hgt].
  - apply U8_val_inj in E as ->. rewrite IH. split; [by intros ->|].
    by intros [= ->].
  - split; [done|]. intros [= -> _]. lia.
  - split; [done|]. intros [= -> _]. lia.
Qed.

Lemma hash_compare_lt_trans a : forall b c,
  hash_compare a b = Lt -> hash_compare b c = Lt -> hash_compare a c = Lt.
Proof.
  induction a as [|x a IH]; intros [|y b] [|z c]; simpl; try done.
  destruct (Z.compare_spec (U8.val x) (U8.val y)) as [E|Hlt|Hgt];
    destruct (Z.compare_spec (U8.val y) (U8.val z)) as [E'|Hlt'|Hgt'];
    destruct (Z.compare_spec (U8.val x) (U8.val z)) as [E''|Hlt''|Hgt''];
    try done; try lia.
  apply IH.
Qed.

Section CandidateMap.
Variable H : hash_string.

Lemma cm_find_update_same candidates f :
  cm_find (cm_update candidates H f) H = Some (f (record_of candidates H)).
Proof.
  unfold record_of.
  induction candidates as [|[h c] rest IH]; simpl.
  - by rewrite (proj2 (hash_compare_eq H H) eq_refl).
  - destruct (hash_compare H h) eqn:E; simpl; rewrite ?E; try done.
    by rewrite (proj2 (hash_compare_eq H H) eq_refl).
Qed.

Lemma cm_find_update_other candidates h f :
  h <> H -> cm_find (cm_update candidates h f) H = cm_find candidates H.
Proof.
  intros Hne.
  assert (hash_compare H h <> Eq) as Hneq.
  { intros E%hash_compare_eq. by subst. }
  induction candidates as [|[e c] rest IH]; simpl.
  - by destruct (hash_compare H h).
  - destruct (hash_compare h e) eqn:Ehe; simpl.
    + apply hash_compare_eq in Ehe as ->. by destruct (hash_compare H e).
    + destruct (hash_compare H h) eqn:EHh; [done| |done].
      by rewrite (hash_compare_lt_trans H h e EHh Ehe).
    + destruct (hash_compare H e); [done..|]. apply IH.
Qed.

Lemma record_of_update candidates h f :
  record_of (cm_update candidates h f) H
  = if decide (h = H) then f (record_of candidates H)
    else record_of candidates H.
Proof.
  unfold record_of at 1. case_decide as E.
  - subst h. by rewrite cm_find_update_same.
  - by rewrite cm_find_update_other.
Qed.

Lemma cm_find_elem candidates c :
  cm_find candidates H = Some c -> (H, c) ∈ candidates.
Proof.
  induction candidates as [|[h c'] rest IH]; simpl; [done|].
  destruct (hash_compare H h) eqn:E; intros Hf; simplify_eq.
  - apply hash_compare_eq in E as ->. apply list_elem_of_here.
  - apply list_elem_of_further. by apply IH.
Qed.

End CandidateMap.

(** ** What the reader records of a stored hash *)

Lemma seen_extra c z m t : seen c z m -> seen (bump t c) z m.
Proof.
  unfold seen, bump. intros (Hz & Hm & Hn & H1 & H2).
  repeat case_decide; simpl; repeat split; try done; lia.
Qed.

Lemma seen_exact c z m : seen c z m -> seen (bump 0 c) (z + 1) m.
Proof.
  unfold seen, bump. intros (Hz & Hm & Hn & H1 & H2).
  repeat case_decide; simpl; repeat split; try done; try lia.
  all: intros; first [lia | auto].
Qed.

Lemma seen_variant c z m : seen c z m -> seen (bump 1 c) z (m + 1).
Proof.
  unfold seen, bump. intros (Hz & Hm & Hn & H1 & H2).
  repeat case_decide; simpl; repeat split; try done; try lia.
  all: intros; first [lia | left; apply H1; lia | auto].
Qed.

(** The validity rule accepts a record that was met often enough. *)
Lemma seen_valid hm c z m :
  seen c z m ->
  2 * z + m >= (if Z.odd (_max_error hm) then 3 else 2) ->
  valid_candidate hm c = true /\ matches c >= 1.
Proof.
  unfold seen. intros (Hz & Hm & Hn & H1 & H2) Hzm.
  unfold valid_candidate.
  pose proof (land_1_odd (_max_error hm)) as Hodd.
  destruct (Z.odd (_max_error hm)).
  - rewrite decide_True by (by apply Hodd). split; [|lia].
    repeat case_decide; try done.
    assert (matches c = 2) by lia. assert (z >= 1) by lia.
    destruct H2; lia.
  - rewrite decide_False by (intros ?%Hodd; done). split; [|lia].
    repeat case_decide; try done.
    assert (matches c = 1) by lia. assert (z >= 1) by lia.
    specialize (H1 ltac:(lia) ltac:(lia)). done.
Qed.

Section Records.
Variables (hm : HmSearchImpl) (H : hash_string).

Lemma add_hash_candidates_from_keeps (Phi : Candidate -> Prop) t hashes fuel :
  (forall c, Phi c -> Phi (bump t c)) ->
  forall candidates n r,
  Phi (record_of candidates H) ->
  add_hash_candidates_from hm fuel candidates t hashes n = Some r ->
  Phi (record_of r H).
Proof.
  intros Hstep.
  induction fuel as [|fuel IH]; intros candidates n r HPhi E; simpl in E;
    case_decide; simplify_eq; try done.
  case_decide; [|done].
  eapply IH; [|exact E].
  rewrite record_of_update. case_decide; auto.
Qed.

Lemma add_hash_candidates_from_hits (Phi Psi : Candidate -> Prop) t hashes fuel :
  (forall c, Phi c -> Psi (bump t c)) ->
  (forall c, Psi c -> Psi (bump t c)) ->
  let hb := Z.to_nat (_hash_bytes hm) in
  forall (j : nat) candidates n r,
  Phi (record_of candidates H) ->
  (n + j * hb + hb <= length hashes)%nat ->
  (0 < hb)%nat ->
  take hb (drop (n + j * hb) hashes) = H ->
  add_hash_candidates_from hm fuel candidates t hashes n = Some r ->
  Psi (record_of r H).
Proof.
  intros Hhit Hkeep hb.
  induction fuel as [|fuel IH]; intros j candidates n r HPhi Hj Hhb Hchunk E;
    simpl in E; fold hb in E.
  - rewrite decide_True in E by lia. done.
  - rewrite decide_True in E by lia.
    case_decide; [|done].
    assert (take hb (drop n (hashes ++ [x00])) = take hb (drop n hashes)) as Ht.
    { rewrite drop_app_le by lia. rewrite take_app_le; [done|].
      rewrite length_drop. lia. }
    rewrite Ht in E.
    destruct j as [|j].
    + replace (n + 0 * hb)%nat with n in Hchunk by lia.
      eapply (add_hash_candidates_from_keeps Psi); [done| |exact E].
      rewrite record_of_update, Hchunk, decide_True by done. auto.
    + destruct (decide (take hb (drop n hashes) = H)) as [Hsame|Hother].
      * eapply (add_hash_candidates_from_keeps Psi); [done| |exact E].
        rewrite record_of_update, decide_True by done. auto.
      * eapply (IH j); [| | |  |exact E]; try done.
        -- by rewrite record_of_update, decide_False.
        -- lia.
        -- rewrite <- Hchunk. f_equal. f_equal. lia.
Qed.

Lemma probe_keeps (Phi : Candidate -> Prop) (t : Z) (db : DB)
    (key : list byte) candidates r :
  (forall c, Phi c -> Phi (bump t c)) ->
  Phi (record_of candidates H) ->
  probe hm db key t candidates = Some r ->
  Phi (record_of r H).
Proof.
  intros Hstep HPhi. unfold probe.
  destruct (leveldb.Get db key) as [status hashes].
  destruct (leveldb.ok status); [|by intros [= <-]].
  unfold add_hash_candidates. case_decide.
  - destruct hashes; [by intros [= <-]|done].
  - by apply add_hash_candidates_from_keeps.
Qed.

Lemma probe_hits (Phi Psi : Candidate -> Prop) (t : Z) (db : DB)
    (key v : list byte) candidates r :
  (forall c, Phi c -> Psi (bump t c)) ->
  (forall c, Psi c -> Psi (bump t c)) ->
  0 < _hash_bytes hm ->
  db !! key = Some v -> holds_copy hm v H ->
  Phi (record_of candidates H) ->
  probe hm db key t candidates = Some r ->
  Psi (record_of r H).
Proof.
  intros Hhit Hkeep Hpos Hv (j & Hj & Hchunk) HPhi.
  unfold probe, leveldb.Get. rewrite Hv. simpl.
  unfold add_hash_candidates. rewrite decide_False by lia.
  apply (add_hash_candidates_from_hits Phi Psi t v (length v) Hhit Hkeep j);
    [done|simpl; lia|lia|done].
Qed.

End Records.

(** ** Keys and partition bits *)

Lemma byte_ext a b :
  (forall t, 0 <= t < 8 -> U8.bit a t = U8.bit b t) -> a = b.
Proof.
  intros Hbits. apply U8_val_inj, Z.bits_inj'. intros n Hn.
  destruct (decide (n < 8)) as [Hlt|Hge].
  - specialize (Hbits (7 - n) ltac:(lia)). unfold U8.bit in Hbits.
    by replace (7 - (7 - n)) with n in Hbits by lia.
  - pose proof (U8_val_range a). pose proof (U8_val_range b).
    rewrite <- (Z.mod_small (U8.val a) (2 ^ 8)) by lia.
    rewrite <- (Z.mod_small (U8.val b) (2 ^ 8)) by lia.
    by rewrite !Z.mod_pow2_bits_high by lia.
Qed.

Lemma U8_xor_bit a t0 t :
  0 <= t0 < 8 -> 0 <= t < 8 ->
  U8.bit (U8.xor a (U8.of_Z (Z.shiftl 1 (7 - t0)))) t
  = xorb (U8.bit a t) (bool_decide (t = t0)).
Proof.
  intros Ht0 Ht. unfold U8.bit, U8.xor. rewrite !U8_val_of_Z.
  change 256 with (2 ^ 8). rewrite Z.mod_pow2_bits_low by lia.
  rewrite Z.lxor_spec. f_equal.
  rewrite Z.mod_pow2_bits_low by lia.
  rewrite Z.shiftl_1_l.
  destruct (decide (t = t0)) as [->|Hne].
  - rewrite bool_decide_eq_true_2 by done. apply Z.pow2_bits_true. lia.
  - rewrite bool_decide_eq_false_2 by done. apply Z.pow2_bits_false. lia.
Qed.

Lemma U8_xor_xor a f : U8.xor (U8.xor a f) f = a.
Proof.
  unfold U8.xor. rewrite U8_val_of_Z.
  pose proof (lxor_byte_range _ _ (U8_val_range a) (U8_val_range f)).
  rewrite Z.mod_small by done.
  rewrite Z.lxor_assoc, Z.lxor_nilpotent, Z.lxor_0_r.
  apply U8_of_Z_val.
Qed.

Lemma xor_at_twice key idx flip key1 :
  xor_at key idx flip = Some key1 -> xor_at key1 idx flip = Some key.
Proof.
  unfold xor_at. case_decide; [|done].
  destruct (key !! Z.to_nat idx) as [x|] eqn:Ex; [|done]. simpl.
  intros [= <-].
  rewrite list_lookup_insert_eq by (by eapply lookup_lt_Some). simpl.
  rewrite list_insert_insert_eq, U8_xor_xor. f_equal.
  by apply list_insert_id.
Qed.

Section KeyBits.
Variables (db : option DB) (B k : Z).
Hypothesis Hvalid : valid_params B k.
Hypothesis Hfit : partitions_fit B k.

Let hm := HmSearchImpl_new db B k.
Let P := (k + 3) / 2.
Let b := ceil_div B P.

(** The bits of a partition key, for a partition of [[0, P)]. *)
Lemma get_partition_key_bits hash i key psize :
  Z.of_nat (length hash) = B / 8 ->
  0 <= i < P ->
  get_partition_key hm hash i = Some (key, psize) ->
  psize = Z.min b (B - i * b)
  /\ Z.of_nat (length key) = (b + 7) / 8 + 3
  /\ take 2 key = ["P"%byte; U8.of_Z i]
  /\ forall (j : nat) t, Z.of_nat j < (b + 7) / 8 + 1 -> 0 <= t < 8 ->
       exists kb,
         key !! (2 + j)%nat = Some kb
         /\ U8.bit kb t
            = bool_decide (i * b <= 8 * (i * b / 8 + Z.of_nat j) + t
                           < i * b + psize)
              && hash_bit_at hash (8 * (i * b / 8 + Z.of_nat j) + t).
Proof.
  intros Hlen Hi.
  destruct (geometry db B k Hvalid Hfit) as (HP & Hb & Hpb & _ & HPpos & Hbpos & _).
  destruct (partition_start db B k Hvalid Hfit i Hi) as [Hs0 Hs].
  destruct Hvalid as (HB & HB8 & _).
  unfold get_partition_key. fold hm.
  change (_hash_bits hm) with B. fold hm P b in Hb, Hpb. rewrite Hb, Hpb.
  fold P b in Hs0, Hs, HPpos, Hbpos.
  generalize dependent (i * b). intros s Hs0 Hs.
  rewrite decide_False by lia.
  assert ((if decide (B - s > b) then b else B - s) = Z.min b (B - s)) as ->
    by (case_decide; lia).
  destruct (copy_bits_spec hash (Z.to_nat ((b + 7) / 8 + 1)) s (Z.min b (B - s)))
    as (rest & -> & Hrlen & Hrest); [lia..|].
  simpl. intros [= <- <-]. split; [done|]. split; [simpl; lia|].
  split; [done|].
  intros j t Hj Ht. apply Hrest; [lia|done].
Qed.

(** Two hashes that agree on the bits of a partition have the same key
    for it. *)
Lemma keys_agree X Y i kX kY psize psize' :
  Z.of_nat (length X) = B / 8 -> Z.of_nat (length Y) = B / 8 ->
  0 <= i < P ->
  get_partition_key hm X i = Some (kX, psize) ->
  get_partition_key hm Y i = Some (kY, psize') ->
  (forall g, i * b <= g < i * b + psize ->
     hash_bit_at X g = hash_bit_at Y g) ->
  kX = kY.
Proof.
  intros HX HY Hi EX EY Hagree.
  destruct (get_partition_key_bits X i kX psize HX Hi EX)
    as (Hps & HlX & HtX & HbX).
  destruct (get_partition_key_bits Y i kY psize' HY Hi EY)
    as (Hps' & HlY & HtY & HbY).
  assert (psize' = psize) as -> by lia.
  rewrite <- (take_drop 2 kX), <- (take_drop 2 kY), HtX, HtY. f_equal.
  apply list_eq. intros j. rewrite !lookup_drop.
  destruct (decide (Z.of_nat j < (b + 7) / 8 + 1)) as [Hj|Hj].
  - destruct (HbX j 0 Hj ltac:(lia)) as (x & Hx & _).
    destruct (HbY j 0 Hj ltac:(lia)) as (y & Hy & _).
    rewrite Hx, Hy. f_equal. apply byte_ext. intros t Ht.
    destruct (HbX j t Hj Ht) as (x' & Hx' & Hbx).
    destruct (HbY j t Hj Ht) as (y' & Hy' & Hby).
    assert (x' = x) as -> by congruence.
    assert (y' = y) as -> by congruence.
    rewrite Hbx, Hby.
    destruct (bool_decide _) eqn:Hin; [|done]. simpl.
    apply bool_decide_eq_true in Hin. by apply Hagree.
  - rewrite !lookup_ge_None_2; [done|lia..].
Qed.

(** Flipping in the key of [X] the one bit of the partition on which
    [X] and [Y] differ gives the key of [Y]. *)
Lemma variant_key X Y i kX kY psize psize' g0 key1 :
  Z.of_nat (length X) = B / 8 -> Z.of_nat (length Y) = B / 8 ->
  0 <= i < P ->
  get_partition_key hm X i = Some (kX, psize) ->
  get_partition_key hm Y i = Some (kY, psize') ->
  i * b <= g0 < i * b + psize ->
  hash_bit_at X g0 <> hash_bit_at Y g0 ->
  (forall g, i * b <= g < i * b + psize -> g <> g0 ->
     hash_bit_at X g = hash_bit_at Y g) ->
  xor_at kX (g0 / 8 - i * b / 8 + 2) (U8.of_Z (Z.shiftl 1 (7 - g0 mod 8)))
  = Some key1 ->
  key1 = kY.
Proof.
  intros HX HY Hi EX EY Hg0 Hdiff Hagree.
  destruct (get_partition_key_bits X i kX psize HX Hi EX)
    as (Hps & HlX & HtX & HbX).
  destruct (get_partition_key_bits Y i kY psize' HY Hi EY)
    as (Hps' & HlY & HtY & HbY).
  assert (psize' = psize) as -> by lia.
  destruct (partition_start db B k Hvalid Hfit i Hi) as [Hs0 Hs].
  fold P b in Hs0, Hs.
  assert (0 < b) as Hbpos by (destruct (geometry db B k Hvalid Hfit); tauto).
  unfold xor_at. rewrite decide_True by lia.
  set (j0 := Z.to_nat (g0 / 8 - i * b / 8)).
  replace (Z.to_nat (g0 / 8 - i * b / 8 + 2)) with (2 + j0)%nat by lia.
  assert (Z.of_nat j0 < (b + 7) / 8 + 1) as Hj0 by lia.
  assert (8 * (i * b / 8 + Z.of_nat j0) + g0 mod 8 = g0) as Hg0' by lia.
  destruct (HbX j0 0 Hj0 ltac:(lia)) as (x0 & Hx0 & _).
  rewrite Hx0. simpl. intros [= <-].
  rewrite <- (take_drop 2 kY).
  rewrite <- (take_drop 2 (<[S (S j0) := _]> kX)).
  rewrite take_insert_ge by lia. rewrite HtX, HtY. f_equal.
  apply list_eq. intros j. rewrite !lookup_drop.
  destruct (decide (Z.of_nat j < (b + 7) / 8 + 1)) as [Hj|Hj]; last first.
  { rewrite !lookup_ge_None_2; [done|rewrite ?length_insert; lia..]. }
  destruct (HbX j 0 Hj ltac:(lia)) as (x & Hx & _).
  destruct (HbY j 0 Hj ltac:(lia)) as (y & Hy & _).
  rewrite Hy.
  destruct (decide (j = j0)) as [->|Hne].
  - rewrite list_lookup_insert_eq by lia. f_equal.
    apply byte_ext. intros t Ht.
    rewrite U8_xor_bit by lia.
    destruct (HbX j0 t Hj Ht) as (x' & Hx' & Hbx).
    destruct (HbY j0 t Hj Ht) as (y' & Hy' & Hby).
    assert (x' = x0) as -> by congruence.
    assert (y' = y) as -> by congruence.
    rewrite Hbx, Hby.
    destruct (decide (t = g0 mod 8)) as [->|Hnt].
    + rewrite Hg0', !bool_decide_eq_true_2 by lia. simpl.
      destruct (hash_bit_at X g0), (hash_bit_at Y g0); done.
    + rewrite (bool_decide_eq_false_2 (t = g0 mod 8)) by done.
      rewrite xorb_false_r.
      destruct (bool_decide _) eqn:Hin; [|done]. simpl.
      apply bool_decide_eq_true in Hin. apply Hagree; lia.
  - rewrite list_lookup_insert_ne by lia. rewrite Hx. f_equal.
    apply byte_ext. intros t Ht.
    destruct (HbX j t Hj Ht) as (x' & Hx' & Hbx).
    destruct (HbY j t Hj Ht) as (y' & Hy' & Hby).
    assert (x' = x) as -> by congruence.
    assert (y' = y) as -> by congruence.
    rewrite Hbx, Hby.
    destruct (bool_decide _) eqn:Hin; [|done]. simpl.
    apply bool_decide_eq_true in Hin. apply Hagree; lia.
Qed.

End KeyBits.

(** ** Counting differing bits *)

Lemma differing_nonneg X Y n : forall s, 0 <= differing X Y s n.
Proof.
  induction n as [|n IH]; intros s; simpl; [done|].
  specialize (IH (s + 1)). unfold differ.
  destruct (xorb _ _); simpl; lia.
Qed.

Lemma differing_app X Y n1 : forall s n2,
  differing X Y s (n1 + n2)
  = differing X Y s n1 + differing X Y (s + Z.of_nat n1) n2.
Proof.
  induction n1 as [|n1 IH]; intros s n2; simpl.
  - by rewrite Z.add_0_r.
  - rewrite IH. replace (s + 1 + Z.of_nat n1) with (s + Z.of_nat (S n1)) by lia.
    lia.
Qed.

Lemma differing_0 X Y n : forall s,
  differing X Y s n = 0 ->
  forall g, s <= g < s + Z.of_nat n -> hash_bit_at X g = hash_bit_at Y g.
Proof.
  induction n as [|n IH]; intros s E g Hg; simpl in E; [lia|].
  pose proof (differing_nonneg X Y n (s + 1)).
  unfold differ in E.
  destruct (decide (g = s)) as [->|Hne].
  - destruct (hash_bit_at X s), (hash_bit_at Y s); simpl in E; try done; lia.
  - apply (IH (s + 1)); [|lia].
    destruct (xorb _ _); simpl in E; lia.
Qed.

Lemma differing_1 X Y n : forall s,
  differing X Y s n = 1 ->
  exists g0,
    s <= g0 < s + Z.of_nat n
    /\ hash_bit_at X g0 <> hash_bit_at Y g0
    /\ forall g, s <= g < s + Z.of_nat n -> g <> g0 ->
         hash_bit_at X g = hash_bit_at Y g.
Proof.
  induction n as [|n IH]; intros s E; simpl in E; [done|].
  pose proof (differing_nonneg X Y n (s + 1)).
  unfold differ in E.
  destruct (xorb (hash_bit_at X s) (hash_bit_at Y s)) eqn:Ex; simpl in E.
  - exists s. split; [lia|]. split.
    { intros Heq. rewrite Heq, xorb_nilpotent in Ex. done. }
    intros g Hg Hne. apply (differing_0 X Y n (s + 1)); lia.
  - destruct (IH (s + 1)) as (g0 & Hg0 & Hdiff & Hagree); [lia|].
    exists g0. split; [lia|]. split; [done|].
    intros g Hg Hne. destruct (decide (g = s)) as [->|Hns].
    + by apply xorb_eq.
    + apply Hagree; lia.
Qed.

Lemma hash_bit_at_cons a X g :
  0 <= g -> hash_bit_at (a :: X) (g + 8) = hash_bit_at X g.
Proof.
  intros Hg. unfold hash_bit_at.
  replace ((g + 8) / 8) with (g / 8 + 1) by lia.
  replace ((g + 8) mod 8) with (g mod 8) by lia.
  replace (Z.to_nat (g / 8 + 1)) with (S (Z.to_nat (g / 8))) by lia.
  done.
Qed.

Lemma differing_cons a b X Y n : forall s,
  0 <= s -> differing (a :: X) (b :: Y) (s + 8) n = differing X Y s n.
Proof.
  induction n as [|n IH]; intros s Hs; simpl; [done|].
  replace (s + 8 + 1) with (s + 1 + 8) by lia.
  rewrite IH by lia. unfold differ. by rewrite !hash_bit_at_cons.
Qed.

Lemma differing_byte a b X Y :
  differing (a :: X) (b :: Y) 0 8 = popcount (Z.lxor (U8.val a) (U8.val b)).
Proof.
  set (L := Z.lxor (U8.val a) (U8.val b)).
  assert (forall t, 0 <= t < 8 ->
            differ (a :: X) (b :: Y) t = Z.b2z (Z.testbit L (7 - t))) as Hbit.
  { intros t Ht. unfold differ, hash_bit_at.
    replace (t / 8) with 0 by lia. replace (t mod 8) with t by lia.
    change (Z.to_nat 0) with 0%nat. cbn [lookup list_lookup].
    unfold U8.bit, L. by rewrite Z.lxor_spec. }
  cbn [differing]. rewrite !Hbit by lia.
  unfold popcount. cbn [foldr seq].
  repeat match goal with
         | |- context [Z.testbit L ?i] =>
             progress (let v := eval vm_compute in i in change i with v)
         end.
  ring.
Qed.

(** The Hamming distance of two hashes of the same length is the number
    of bit positions at which they differ. *)
Lemma Hamming_differing X : forall Y,
  length X = length Y ->
  Hamming X Y = differing X Y 0 (8 * length X).
Proof.
  induction X as [|a X IH]; intros [|b Y] Hlen; simpl in Hlen; try done.
  replace (8 * length (a :: X))%nat with (8 + 8 * length X)%nat
    by (simpl; lia).
  rewrite differing_app, differing_byte.
  change (0 + Z.of_nat 8) with (0 + 8).
  rewrite differing_cons by lia.
  rewrite <- IH by lia. done.
Qed.

(** ** Completeness of the reader *)

Section Variants.
Variables (hm : HmSearchImpl) (db : DB) (H : hash_string).

Lemma variants_loop_keeps (Phi : Candidate -> Prop) pbyte n :
  (forall c, Phi c -> Phi (bump 1 c)) ->
  forall pbit key candidates key' r,
  Phi (record_of candidates H) ->
  variants_loop hm db pbyte n pbit key candidates = Some (key', r) ->
  Phi (record_of r H) /\ key' = key.
Proof.
  intros Hstep.
  induction n as [|n IH]; intros pbit key candidates key' r HPhi E; simpl in E.
  - by simplify_eq.
  - destruct (shl 1 (7 - Z.rem pbit 8)) as [f|]; [|done]. simpl in E.
    destruct (xor_at key _ _) as [key1|] eqn:Ex; [|done]. simpl in E.
    destruct (probe hm db key1 1 candidates) as [c1|] eqn:Ep; [|done].
    simpl in E. rewrite (xor_at_twice _ _ _ _ Ex) in E. simpl in E.
    eapply IH; [|exact E]. eapply probe_keeps; done.
Qed.

Lemma variants_loop_hits (Phi Psi : Candidate -> Prop) pbyte g0 n :
  (forall c, Phi c -> Phi (bump 1 c)) ->
  (forall c, Phi c -> Psi (bump 1 c)) ->
  (forall c, Psi c -> Psi (bump 1 c)) ->
  0 < _hash_bytes hm ->
  forall pbit key candidates key' r,
  pbit <= g0 < pbit + Z.of_nat n ->
  (forall key1,
     xor_at key (Z.quot g0 8 - pbyte + 2)
            (U8.of_Z (Z.shiftl 1 (7 - Z.rem g0 8))) = Some key1 ->
     exists v, db !! key1 = Some v /\ holds_copy hm v H) ->
  Phi (record_of candidates H) ->
  variants_loop hm db pbyte n pbit key candidates = Some (key', r) ->
  Psi (record_of r H).
Proof.
  intros Hkeep Hhit Hkeep' Hpos.
  induction n as [|n IH]; intros pbit key candidates key' r Hg0 Hkey HPhi E;
    simpl in E; [lia|].
  destruct (shl 1 (7 - Z.rem pbit 8)) as [f|] eqn:Ef; [|done]. simpl in E.
  destruct (xor_at key (Z.quot pbit 8 - pbyte + 2) (U8.of_Z f))
    as [key1|] eqn:Ex; [|done].
  simpl in E.
  destruct (probe hm db key1 1 candidates) as [c1|] eqn:Ep; [|done].
  simpl in E. rewrite (xor_at_twice _ _ _ _ Ex) in E. simpl in E.
  destruct (decide (pbit = g0)) as [->|Hne].
  - unfold shl in Ef. case_decide; [|done]. injection Ef as <-.
    destruct (Hkey key1 Ex) as (v & Hv & Hcopy).
    apply (variants_loop_keeps Psi pbyte n Hkeep') in E as [HPsi _]; [done|].
    eapply (probe_hits hm H Phi Psi); done.
  - eapply IH; [| |  |exact E].
    + lia.
    + done.
    + eapply probe_keeps; done.
Qed.

End Variants.

Lemma lookup_loop_mono hm query m candidates : forall result result' x,
  lookup_loop hm query m candidates result = Some result' ->
  x ∈ result -> x ∈ result'.
Proof.
  induction candidates as [|[hash cand] rest IH]; intros result result' x E Hx;
    simpl in E.
  - by simplify_eq.
  - destruct (valid_candidate hm cand); [|by eapply IH].
    destruct (hamming_distance query hash) as [d|]; [|done]. simpl in E.
    case_decide; [|by eapply IH].
    eapply IH; [exact E|]. apply elem_of_app. by left.
Qed.

Lemma lookup_loop_complete hm query m candidates H c : forall result result',
  Z.of_nat (length query) = _hash_bytes hm ->
  Z.of_nat (length H) = _hash_bytes hm ->
  (H, c) ∈ candidates ->
  valid_candidate hm c = true ->
  Hamming query H <= _max_error hm ->
  m < 0 \/ Hamming query H <= m ->
  lookup_loop hm query m candidates result = Some result' ->
  (H, Hamming query H) ∈ result'.
Proof.
  induction candidates as [|[hash cand] rest IH];
    intros result result' Hq HH Hin Hvalid Hk Hm E; simpl in E.
  - by apply elem_of_nil in Hin.
  - apply elem_of_cons in Hin as [[= <- <-]|Hin].
    + rewrite Hvalid in E.
      rewrite hamming_distance_spec in E by lia. simpl in E.
      rewrite decide_True in E by done.
      eapply lookup_loop_mono; [exact E|].
      apply elem_of_app. right. apply list_elem_of_here.
    + destruct (valid_candidate hm cand); [|by eapply IH].
      destruct (hamming_distance query hash) as [d|]; [|done]. simpl in E.
      case_decide; by eapply IH.
Qed.

Section Recall.
Variables (db0 : option DB) (B k : Z) (db : DB) (H Q : hash_string).
Hypothesis Hvalid : valid_params B k.
Hypothesis Hfit : partitions_fit B k.
Hypothesis HlenH : Z.of_nat (length H) = B / 8.
Hypothesis HlenQ : Z.of_nat (length Q) = B / 8.

Let hm := HmSearchImpl_new db0 B k.
Let P := (k + 3) / 2.
Let b := ceil_div B P.

(** Each slot of [H] holds a copy of [H]. *)
Hypothesis Hstored : forall i key psize,
  0 <= i < P -> get_partition_key hm H i = Some (key, psize) ->
  exists v, db !! key = Some v /\ holds_copy hm v H.

(** After the partitions before [i], the record of [H] was met in [z]
    exact and [m] 1-variant slots, and each of these partitions that is
    not counted has at least two bits on which [Q] and [H] differ. *)
Lemma get_candidates_loop_seen n : forall i candidates r,
  0 <= i -> i + Z.of_nat n <= P ->
  (exists z m,
     seen (record_of candidates H) z m
     /\ 2 * z + m >= 2 * i - differing Q H 0 (Z.to_nat (Z.min (i * b) B))) ->
  get_candidates_loop hm db Q n i candidates = Some r ->
  exists z m,
    seen (record_of r H) z m
    /\ 2 * z + m
       >= 2 * (i + Z.of_nat n)
          - differing Q H 0 (Z.to_nat (Z.min ((i + Z.of_nat n) * b) B)).
Proof.
  destruct (geometry db0 B k Hvalid Hfit)
    as (HP & Hb & Hpb & Hhb & HPpos & Hbpos & _).
  pose proof (get_partition_key_bits db0 B k Hvalid Hfit) as Hbits.
  pose proof (get_partition_key_defined db0 B k Hvalid Hfit H) as HdefH.
  pose proof (keys_agree db0 B k Hvalid Hfit Q H) as Hagree.
  pose proof (variant_key db0 B k Hvalid Hfit Q H) as Hvar.
  pose proof (partition_start db0 B k Hvalid Hfit) as Hstart.
  assert (0 < B / 8) as Hpos by (destruct Hvalid as (? & ? & _); lia).
  rewrite <- Hhb in Hpos.
  fold hm in HP, Hb, Hpb, Hhb, Hbits, HdefH, Hagree, Hvar, Hpos.
  fold P in HP, Hb, Hpb, HPpos, Hbpos, Hbits, HdefH, Hagree, Hvar, Hstart.
  fold b in Hb, Hpb, Hbpos, Hbits, HdefH, Hagree, Hvar, Hstart.
  clearbody hm P b.
  induction n as [|n IH]; intros i candidates r Hi Hn Hinv E; simpl in E.
  - injection E as <-. by rewrite Z.add_0_r.
  - destruct (get_partition_key hm Q i) as [[kQ bits]|] eqn:EQ; [|done].
    simpl in E.
    destruct (probe hm db kQ 0 candidates) as [c1|] eqn:Ep; [|done].
    simpl in E. rewrite Hb in E.
    destruct (variants_loop hm db (Z.quot (i * b) 8) (Z.to_nat bits) (i * b)
                            kQ c1) as [[key' c2]|] eqn:Ev; [|done].
    simpl in E.
    destruct (Hbits Q i kQ bits HlenQ ltac:(lia) EQ) as (Hps & _).
    destruct (HdefH i HlenH ltac:(lia)) as (kH & EH & _).
    destruct (Hstored i kH _ ltac:(lia) EH) as (v & Hv & Hcopy).
    destruct (Hstart i ltac:(lia)) as [Hs0 Hs].
    destruct Hinv as (z & m & Hseen & Hzm).
    replace (i + Z.of_nat (S n)) with (i + 1 + Z.of_nat n) by lia.
    apply (IH (i + 1) c2 r); [lia|lia| |exact E].
    assert (differing Q H 0 (Z.to_nat (Z.min ((i + 1) * b) B))
            = differing Q H 0 (Z.to_nat (Z.min (i * b) B))
              + differing Q H (i * b) (Z.to_nat bits)) as Hsplit.
    { replace (Z.to_nat (Z.min ((i + 1) * b) B))
        with (Z.to_nat (i * b) + Z.to_nat bits)%nat by lia.
      rewrite differing_app. rewrite Z2Nat.id by lia.
      by replace (Z.min (i * b) B) with (i * b) by lia. }
    rewrite Hsplit.
    pose proof (differing_nonneg Q H (Z.to_nat bits) (i * b)) as Hd0.
    destruct (decide (differing Q H (i * b) (Z.to_nat bits) = 0)) as [Hd|Hd];
      [|destruct (decide (differing Q H (i * b) (Z.to_nat bits) = 1))
          as [Hd1|Hd1]].
    + (* the partition agrees: the exact slot is that of [H] *)
      exists (z + 1), m. split; [|lia].
      assert (kQ = kH) as ->.
      { eapply (Hagree i); [done..|lia|exact EQ|exact EH|].
        intros g Hg. apply (differing_0 Q H _ _ Hd). lia. }
      eapply (variants_loop_keeps hm db H (fun c => seen c (z + 1) m));
        [intros c; apply seen_extra| |exact Ev].
      eapply (probe_hits hm H (fun c => seen c z m)); [| | | | | |exact Ep];
        try done.
      * intros c. apply seen_exact.
      * intros c. apply seen_extra.
    + (* one bit differs: its 1-variant slot is that of [H] *)
      exists z, (m + 1). split; [|lia].
      destruct (differing_1 Q H _ _ Hd1) as (g0 & Hg0 & Hdiff & Hsame).
      eapply (variants_loop_hits hm db H (fun c => seen c z m)
                (fun c => seen c z (m + 1)) (Z.quot (i * b) 8) g0);
        [| | | | | | |exact Ev]; try done.
      * intros c. apply seen_extra.
      * intros c. apply seen_variant.
      * intros c. apply seen_extra.
      * intros key1 Hkey1. exists v. split; [|done].
        rewrite !Z.quot_div_nonneg, Z.rem_mod_nonneg in Hkey1 by lia.
        assert (key1 = kH) as ->; [|done].
        eapply (Hvar i kQ kH bits _ g0 key1); try done; try lia.
        intros g Hg Hne. apply Hsame; lia.
      * eapply probe_keeps; [|done|exact Ep]. intros c. apply seen_extra.
    + (* two bits or more differ *)
      exists z, m. split; [|lia].
      eapply (variants_loop_keeps hm db H (fun c => seen c z m));
        [intros c; apply seen_extra| |exact Ev].
      eapply probe_keeps; [|done|exact Ep]. intros c. apply seen_extra.
Qed.

End Recall.

(** * Further properties *)

(** The pigeonhole argument of the reader: a stored hash within
    distance [k] of the query is reached through one of its slots. *)
Lemma lookup_complete (db : DB) (B k : Z) (H Q : hash_string)
    (result : LookupResultList) (m : Z) :
  valid_params B k -> partitions_fit B k ->
  slots_sized (HmSearchImpl_new (Some db) B k) db ->
  Z.of_nat (length H) = ceil_div B 8 ->
  Z.of_nat (length Q) = ceil_div B 8 ->
  (forall i key psize,
     0 <= i < (k + 3) / 2 ->
     get_partition_key (HmSearchImpl_new (Some db) B k) H i = Some (key, psize) ->
     db !! key = Some H) ->
  Hamming Q H <= k ->
  m < 0 \/ Hamming Q H <= m ->
  exists result',
    lookup (HmSearchImpl_new (Some db) B k) Q result m
    = Some (true, ""%string, result')
    /\ (H, Hamming Q H) ∈ result'.
Proof.
  intros Hv Hfit Hdb HlenH HlenQ Hstored Hk Hm.
  destruct (lookup_succeeds db B k Q result m Hv Hfit Hdb HlenQ)
    as [result' Hlookup].
  exists result'. split; [done|].
  destruct (geometry (Some db) B k Hv Hfit)
    as (HP & Hb & _ & Hhb & HPpos & Hbpos & _).
  pose proof Hv as (HB & HB8 & Hk0 & _).
  assert (ceil_div B 8 = B / 8) as Hc by (unfold ceil_div; lia).
  rewrite Hc in HlenH, HlenQ.
  unfold lookup in Hlookup. rewrite hash_bytes_new in Hlookup by lia.
  rewrite decide_False in Hlookup by lia.
  change (_db (HmSearchImpl_new (Some db) B k)) with (Some db) in Hlookup.
  cbv beta iota in Hlookup.
  destruct (get_candidates (HmSearchImpl_new (Some db) B k) db Q [])
    as [candidates|] eqn:Ec; [|done].
  simpl in Hlookup.
  destruct (lookup_loop (HmSearchImpl_new (Some db) B k) Q m candidates result)
    as [r|] eqn:El; [|done].
  injection Hlookup as <-.
  unfold get_candidates in Ec. rewrite HP in Ec.
  assert (forall i key psize,
            0 <= i < (k + 3) / 2 ->
            get_partition_key (HmSearchImpl_new (Some db) B k) H i
            = Some (key, psize) ->
            exists v, db !! key = Some v
                      /\ holds_copy (HmSearchImpl_new (Some db) B k) v H)
    as Hcopies.
  { intros i key psize Hi Hkey. exists H. split; [by eapply Hstored|].
    exists 0%nat. rewrite Hhb. simpl. rewrite drop_0.
    split; [lia|]. apply take_ge. lia. }
  assert (exists z m',
            seen (record_of [] H) z m'
            /\ 2 * z + m'
               >= 2 * 0 - differing Q H 0
                            (Z.to_nat (Z.min (0 * ceil_div B ((k + 3) / 2)) B)))
    as Hstart.
  { exists 0, 0. split.
    - unfold seen, record_of. simpl. repeat split; try lia.
    - replace (Z.min (0 * ceil_div B ((k + 3) / 2)) B) with 0 by lia.
      simpl. lia. }
  destruct (get_candidates_loop_seen (Some db) B k db H Q Hv Hfit HlenH HlenQ
              Hcopies (Z.to_nat ((k + 3) / 2)) 0 [] candidates
              ltac:(lia) ltac:(lia) Hstart Ec)
    as (z & m' & Hseen & Hzm).
  assert (Z.min ((0 + Z.of_nat (Z.to_nat ((k + 3) / 2)))
                 * ceil_div B ((k + 3) / 2)) B = B) as Hmin.
  { rewrite Z.add_0_l, Z2Nat.id by lia. unfold ceil_div in *. nia. }
  rewrite Hmin in Hzm.
  replace (Z.to_nat B) with (8 * length Q)%nat in Hzm by lia.
  rewrite <- Hamming_differing in Hzm by lia.
  destruct (seen_valid (HmSearchImpl_new (Some db) B k)
              (record_of candidates H) z m' Hseen) as [Hvalid Hmatches].
  { simpl. rewrite Zodd_mod. destruct (Z.eqb_spec (k mod 2) 1); lia. }
  unfold record_of in Hvalid, Hmatches.
  destruct (cm_find candidates H) as [c|] eqn:Ef; [|simpl in Hmatches; lia].
  simpl in Hvalid.
  eapply lookup_loop_complete; [| | | | | |exact El]; try done.
  - rewrite Hhb. lia.
  - rewrite Hhb. lia.
  - by apply cm_find_elem.
Qed.

(** X1. Completeness of the reader: a stored hash whose slots still hold it
    is returned, with its distance, by every [lookup] of a query within
    distance [k] of it (and within the cap, when one is given). *)
Theorem stored_hash_found (db : DB) (B k : Z) (H Q : hash_string)
    (result : LookupResultList) (m : Z) :
  valid_params B k -> partitions_fit B k ->
  slots_sized (HmSearchImpl_new (Some db) B k) db ->
  Z.of_nat (length H) = ceil_div B 8 ->
  Z.of_nat (length Q) = ceil_div B 8 ->
  (forall i key psize,
     0 <= i < (k + 3) / 2 ->
     get_partition_key (HmSearchImpl_new (Some db) B k) H i = Some (key, psize) ->
     db !! key = Some H) ->
  Hamming Q H <= k ->
  m < 0 \/ Hamming Q H <= m ->
  exists result',
    lookup (HmSearchImpl_new (Some db) B k) Q result m
    = Some (true, ""%string, result')
    /\ (H, Hamming Q H) ∈ result'.
Proof. apply lookup_complete. Qed.

Lemma slot_of_partition_key hm hash key :
  slot_of hm hash key -> partition_key key.
Proof. intros (i & psize & _ & Hk). by eapply get_partition_key_head. Qed.

Lemma hash_bytes_exact db B k :
  0 <= B -> _hash_bytes (HmSearchImpl_new db B k) = ceil_div B 8.
Proof.
  intros HB. simpl. rewrite Z.quot_div_nonneg by lia.
  unfold ceil_div. f_equal. lia.
Qed.

(** A successful [insert] keeps every slot one hash long. *)
Lemma insert_keeps_slots_sized (db : DB) (B k : Z) hash msg hm' :
  0 <= B < 2 ^ 31 ->
  slots_sized (HmSearchImpl_new (Some db) B k) db ->
  insert (HmSearchImpl_new (Some db) B k) hash = Some (true, msg, hm') ->
  exists db',
    hm' = HmSearchImpl_new (Some db') B k
    /\ slots_sized (HmSearchImpl_new (Some db') B k) db'
    /\ forall key,
        (slot_of (HmSearchImpl_new (Some db) B k) hash key
         /\ db' !! key = Some hash)
        \/ (~ slot_of (HmSearchImpl_new (Some db) B k) hash key
            /\ db' !! key = db !! key).
Proof.
  intros HB Hdb Hins.
  apply insert_spec in Hins as (Hlen & db0 & db' & Hdb0 & -> & Hkeys).
  injection Hdb0 as <-. exists db'. split; [done|]. split; [|done].
  rewrite hash_bytes_new in Hlen by done.
  intros key v Hkey Hv.
  destruct (Hkeys key) as [[_ Hl]|[_ Hl]].
  - rewrite Hl in Hv. injection Hv as <-.
    rewrite Hlen. by rewrite hash_bytes_exact by lia.
  - rewrite Hl in Hv. by apply (Hdb key).
Qed.

(** X2. Round trip of [insert] and [lookup]: the hash inserted last is
    returned, with its distance, by every [lookup] of a query within
    distance [k] of it (and within the cap, when one is given). *)
Theorem last_inserted_found (db : DB) (B k : Z) (H Q : hash_string)
    (msg : string) (hm' : HmSearchImpl) (result : LookupResultList) (m : Z) :
  valid_params B k -> partitions_fit B k ->
  slots_sized (HmSearchImpl_new (Some db) B k) db ->
  insert (HmSearchImpl_new (Some db) B k) H = Some (true, msg, hm') ->
  Z.of_nat (length Q) = ceil_div B 8 ->
  Hamming Q H <= k ->
  m < 0 \/ Hamming Q H <= m ->
  exists result',
    lookup hm' Q result m = Some (true, ""%string, result')
    /\ (H, Hamming Q H) ∈ result'.
Proof.
  intros Hv Hfit Hdb Hins HlenQ Hk Hm.
  pose proof Hv as (HB & _ & Hk0 & _).
  pose proof (insert_spec _ _ _ _ Hins) as (HlenH & _).
  rewrite hash_bytes_new in HlenH by lia.
  destruct (insert_keeps_slots_sized db B k H msg hm' ltac:(lia) Hdb Hins)
    as (db' & -> & Hdb' & Hkeys).
  apply lookup_complete; try done.
  intros i key psize Hi Hkey.
  destruct (Hkeys key) as [[_ Hl]|[Hno _]]; [done|].
  destruct Hno. exists i, psize. split; [|done].
  rewrite partitions_new by lia. done.
Qed.

Lemma valid_8_2 : valid_params 8 2.
Proof. unfold valid_params. lia. Qed.

Lemma fit_8_2 : partitions_fit 8 2.
Proof. vm_compute. discriminate. Qed.

Lemma fresh_slots_sized (hm : HmSearchImpl) (db : DB) :
  (forall key, partition_key key -> db !! key = None) -> slots_sized hm db.
Proof. intros Hfresh key v Hkey Hv. by rewrite Hfresh in Hv. Qed.

(** [insert] of 0xA5 into an index with [B = 8], [k = 2], whatever its
    store holds. *)
Lemma insert_a5 (db : DB) :
  insert (HmSearchImpl_new (Some db) 8 2) [xa5]
  = Some (true, ""%string,
          HmSearchImpl_new
            (Some (<[ ["P"%byte; x01; x05; x00] := [xa5] ]>
                     (<[ ["P"%byte; x00; xa0; x00] := [xa5] ]> db))) 8 2).
Proof. reflexivity. Qed.

Lemma last_inserted_found_witness :
  exists result',
    lookup (HmSearchImpl_new (Some store_a5) 8 2) [xa4] [] (-1)
    = Some (true, ""%string, result')
    /\ ([xa5], Hamming [xa4] [xa5]) ∈ result'.
Proof.
  apply (last_inserted_found store_8_2 8 2 [xa5] [xa4] ""%string
           (HmSearchImpl_new (Some store_a5) 8 2) [] (-1)).
  - exact valid_8_2.
  - exact fit_8_2.
  - apply fresh_slots_sized, store_8_2_fresh.
  - apply insert_a5.
  - reflexivity.
  - vm_compute. discriminate.
  - left. lia.
Defined.

Lemma stored_hash_found_witness :
  exists result',
    lookup (HmSearchImpl_new (Some store_a5) 8 2) [xe5] [] 1
    = Some (true, ""%string, result')
    /\ ([xa5], Hamming [xe5] [xa5]) ∈ result'.
Proof.
  destruct (insert_keeps_slots_sized store_8_2 8 2 [xa5] ""%string _
              ltac:(lia) (fresh_slots_sized _ _ store_8_2_fresh)
              (insert_a5 store_8_2)) as (db' & Heq & Hdb' & Hkeys).
  injection Heq as <-.
  apply (stored_hash_found store_a5 8 2 [xa5] [xe5] [] 1).
  - exact valid_8_2.
  - exact fit_8_2.
  - exact Hdb'.
  - reflexivity.
  - reflexivity.
  - intros i key psize Hi Hkey.
    destruct (Hkeys key) as [[_ Hl]|[Hno _]]; [done|].
    destruct Hno. exists i, psize. split; [|done].
    rewrite partitions_new; lia.
  - vm_compute. discriminate.
  - right. vm_compute. discriminate.
Defined.

(** ** What [insert] leaves alone *)

(** X7. A successful [insert] writes partition slots only: every key that
    does not begin with ['P'], the settings records [_hb] and [_me]
    among them, keeps its value. *)
Theorem insert_keeps_other_keys (hm : HmSearchImpl) (hash : hash_string)
    (msg : string) (hm' : HmSearchImpl) (db : DB) (key : list byte) :
  insert hm hash = Some (true, msg, hm') ->
  _db hm = Some db ->
  ~ partition_key key ->
  exists db', _db hm' = Some db' /\ db' !! key = db !! key.
Proof.
  intros Hins Hdb Hkey.
  apply insert_spec in Hins as (_ & db0 & db' & Hdb0 & -> & Hkeys).
  rewrite Hdb in Hdb0. injection Hdb0 as <-.
  exists db'. split; [done|].
  destruct (Hkeys key) as [[Hslot _]|[_ Hl]]; [|done].
  destruct Hkey. by eapply slot_of_partition_key.
Qed.

Lemma insert_keeps_other_keys_witness :
  exists db',
    _db (HmSearchImpl_new (Some store_a5) 8 2) = Some db'
    /\ db' !! bytes_of_string "_hb" = store_8_2 !! bytes_of_string "_hb".
Proof.
  apply (insert_keeps_other_keys index_8_2 [xa5] ""%string
           (HmSearchImpl_new (Some store_a5) 8 2) store_8_2
           (bytes_of_string "_hb")).
  - apply insert_a5.
  - reflexivity.
  - vm_compute. discriminate.
Defined.

Lemma insert_loop_any_store (hm : HmSearchImpl) (hash : hash_string) n :
  forall i (db1 db2 : DB) r,
  insert_loop hm hash n i db1 = Some r ->
  exists db2', insert_loop hm hash n i db2 = Some (true, ""%string, db2').
Proof.
  induction n as [|n IH]; intros i db1 db2 r E; simpl in *.
  - by eexists.
  - destruct (get_partition_key hm hash i) as [[key psize]|]; [|done].
    simpl in *. eapply IH. exact E.
Qed.

Lemma insert_loop_set_db hm d hash n : forall i (db : DB),
  insert_loop (set_db hm d) hash n i db = insert_loop hm hash n i db.
Proof.
  induction n as [|n IH]; intros i db; simpl; [done|].
  rewrite get_partition_key_set_db.
  destruct (get_partition_key hm hash i) as [[key psize]|]; [|done].
  simpl. apply IH.
Qed.

(** X8. Inserting a hash a second time changes nothing: the slots already
    hold it, and [Put] writes it over itself. *)
Theorem insert_twice (hm : HmSearchImpl) (hash : hash_string) (msg : string)
    (hm' : HmSearchImpl) :
  insert hm hash = Some (true, msg, hm') ->
  insert hm' hash = Some (true, ""%string, hm').
Proof.
  intros Hins.
  pose proof (insert_spec _ _ _ _ Hins) as (Hlen & db & db' & Hdb & -> & Hkeys).
  unfold insert in *. rewrite decide_False in * by (intros Hne; by apply Hne).
  rewrite Hdb in Hins. simpl.
  destruct (insert_loop hm hash _ 0 db) as [r|] eqn:E1; [|done].
  destruct (insert_loop_any_store hm hash _ 0 db db' r E1) as (db'' & E2).
  rewrite insert_loop_set_db.
  change (_partitions (set_db hm (Some db'))) with (_partitions hm).
  rewrite E2. simpl.
  assert (db'' = db') as ->; [|done].
  apply insert_loop_spec in E2 as [_ Hkeys2].
  apply map_eq. intros key.
  destruct (Hkeys2 key) as [[Hs Hl]|[Hs Hl]]; [|done].
  rewrite Hl. destruct (Hkeys key) as [[_ Hl']|[Hno _]]; [done|].
  destruct Hno. destruct Hs as (j & psize & Hj & Hk).
  exists j, psize. split; [lia|done].
Qed.

Lemma insert_twice_witness :
  insert (HmSearchImpl_new (Some store_a5) 8 2) [xa5]
  = Some (true, ""%string, HmSearchImpl_new (Some store_a5) 8 2).
Proof.
  apply (insert_twice index_8_2 [xa5] ""%string). apply insert_a5.
Defined.

(** ** Partitions that start past the end of the hash *)

Lemma copy_bits_negative hash n hash_bit bits_left :
  bits_left < 0 -> 0 <= hash_bit ->
  copy_bits hash (S n) hash_bit bits_left = None.
Proof.
  intros Hneg Hpos. simpl.
  destruct (at_ hash (Z.quot hash_bit 8)) as [x|]; [|done]. simpl.
  rewrite Z.rem_mod_nonneg by lia.
  rewrite decide_True by lia.
  unfold shl. rewrite decide_False by lia. done.
Qed.

Lemma insert_loop_undefined (hm : HmSearchImpl) (hash : hash_string) n :
  forall i (db : DB),
  (0 < n)%nat ->
  get_partition_key hm hash (i + Z.of_nat n - 1) = None ->
  insert_loop hm hash n i db = None.
Proof.
  induction n as [|n IH]; intros i db Hn Hnone; [lia|]. simpl.
  destruct (get_partition_key hm hash i) as [[key psize]|] eqn:Ek; [|done].
  simpl. destruct n as [|n].
  - replace (i + Z.of_nat 1 - 1) with i in Hnone by lia. congruence.
  - apply IH; [lia|].
    by replace (i + 1 + Z.of_nat (S n) - 1) with (i + Z.of_nat (S (S n)) - 1)
      by lia.
Qed.

Lemma get_candidates_loop_undefined (hm : HmSearchImpl) (db : DB)
    (query : hash_string) n :
  forall i candidates,
  (0 < n)%nat ->
  get_partition_key hm query (i + Z.of_nat n - 1) = None ->
  get_candidates_loop hm db query n i candidates = None.
Proof.
  induction n as [|n IH]; intros i candidates Hn Hnone; [lia|]. simpl.
  destruct (get_partition_key hm query i) as [[key bits]|] eqn:Ek; [|done].
  simpl. destruct (probe hm db key 0 candidates) as [c1|]; [|done]. simpl.
  destruct (variants_loop hm db _ _ _ key c1) as [[key' c2]|]; [|done]. simpl.
  destruct n as [|n].
  - replace (i + Z.of_nat 1 - 1) with i in Hnone by lia. congruence.
  - apply IH; [lia|].
    by replace (i + 1 + Z.of_nat (S n) - 1) with (i + Z.of_nat (S (S n)) - 1)
      by lia.
Qed.

(** X9. [init] accepts parameters for which the last partition starts past
    the end of the hash, [(P - 1) * b > B] (as for [B = 16], [k = 11]).
    [get_partition_key] then has a negative [psize] for that partition
    and shifts by a negative count: on such an index no [insert] and no
    [lookup] of a hash of the right length has a defined result. *)
Theorem partitions_overrun (db : DB) (B k : Z) (hash : hash_string)
    (result : LookupResultList) (m : Z) :
  valid_params B k -> ~ partitions_fit B k ->
  Z.of_nat (length hash) = ceil_div B 8 ->
  B - ((k + 3) / 2 - 1) * ceil_div B ((k + 3) / 2) < 0
  /\ get_partition_key (HmSearchImpl_new (Some db) B k) hash ((k + 3) / 2 - 1)
     = None
  /\ insert (HmSearchImpl_new (Some db) B k) hash = None
  /\ lookup (HmSearchImpl_new (Some db) B k) hash result m = None.
Proof.
  intros Hv Hfit Hlen. pose proof Hv as (HB & HB8 & Hk & Hk518).
  unfold partitions_fit in Hfit.
  set (P := (k + 3) / 2) in *. set (b := ceil_div B P) in *.
  assert (0 < P) as HP by (subst P; lia).
  assert (0 < b) as Hb by (apply ceil_div_pos; lia).
  assert (_partitions (HmSearchImpl_new (Some db) B k) = P) as EP
    by (apply partitions_new; lia).
  assert (get_partition_key (HmSearchImpl_new (Some db) B k) hash (P - 1) = None)
    as Hnone.
  { unfold get_partition_key.
    change (_hash_bits _) with B.
    change (_partition_bits _) with (ceil_div B (_partitions (HmSearchImpl_new (Some db) B k))).
    change (_partition_bytes _)
      with (Z.quot (ceil_div B (_partitions (HmSearchImpl_new (Some db) B k)) + 7) 8 + 1).
    rewrite EP. fold b.
    assert (0 <= (P - 1) * b) by (apply Z.mul_nonneg_nonneg; lia).
    generalize dependent ((P - 1) * b). intros s Hs Hs0.
    rewrite (decide_False (P := B - s > b)) by lia.
    rewrite Z.quot_div_nonneg by lia.
    rewrite decide_False by lia.
    replace (Z.to_nat ((b + 7) / 8 + 1)) with (S (Z.to_nat ((b + 7) / 8)))
      by lia.
    rewrite copy_bits_negative; [done|lia|lia]. }
  split; [lia|]. split; [done|].
  unfold insert, lookup. rewrite hash_bytes_new by lia.
  rewrite !decide_False by (intros Hne; by apply Hne).
  change (_db _) with (Some db). cbv beta iota.
  unfold get_candidates. rewrite EP.
  rewrite insert_loop_undefined, get_candidates_loop_undefined; try done;
    try lia.
  - by replace (0 + Z.of_nat (Z.to_nat P) - 1) with (P - 1) by lia.
  - by replace (0 + Z.of_nat (Z.to_nat P) - 1) with (P - 1) by lia.
Qed.

Lemma partitions_overrun_witness :
  insert (HmSearchImpl_new (Some store_8_2) 16 11) [xff; xff] = None.
Proof.
  apply (partitions_overrun store_8_2 16 11 [xff; xff] [] (-1)).
  - unfold valid_params. lia.
  - vm_compute. intros Hle. by apply Hle.
  - reflexivity.
Defined.

(** ** The result list *)

Lemma lookup_loop_app hm query m candidates : forall result,
  lookup_loop hm query m candidates result
  = (result ++.) <$> lookup_loop hm query m candidates [].
Proof.
  induction candidates as [|[hash cand] rest IH]; intros result; simpl.
  - by rewrite app_nil_r.
  - destruct (valid_candidate hm cand); [|apply IH].
    destruct (hamming_distance query hash) as [d|]; [|done]. simpl.
    case_decide; [|apply IH].
    rewrite (IH (result ++ [(hash, d)])), (IH [(hash, d)]).
    destruct (lookup_loop hm query m rest []); [|done]. simpl.
    by rewrite <- app_assoc.
Qed.




(** ** Order of the candidates *)

Lemma hash_compare_gt_lt a : forall b,
  hash_compare a b = Gt -> hash_compare b a = Lt.
Proof.
  induction a as [|x a IH]; intros [|y b]; simpl; try done.
  destruct (Z.compare_spec (U8.val x) (U8.val y)) as [E|Hlt|Hgt];
    destruct (Z.compare_spec (U8.val y) (U8.val x)) as [E'|Hlt'|Hgt'];
    try done; try lia.
  apply IH.
Qed.

Lemma cm_update_keys candidates hash f x :
  x ∈ (cm_update candidates hash f).*1 -> x = hash \/ x ∈ candidates.*1.
Proof.
  induction candidates as [|[h c] rest IH]; simpl.
  - intros Hx%list_elem_of_singleton. by left.
  - destruct (hash_compare hash h) eqn:E; simpl.
    + by right.
    + intros [->|Hx]%elem_of_cons; [by left|by right].
    + intros [->|Hx]%elem_of_cons.
      * right. apply list_elem_of_here.
      * destruct (IH Hx) as [->|Hr]; [by left|].
        right. by apply list_elem_of_further.
Qed.

Lemma cm_update_sorted candidates hash f :
  StronglySorted (fun a b => hash_compare a b = Lt) candidates.*1 ->
  StronglySorted (fun a b => hash_compare a b = Lt)
                 (cm_update candidates hash f).*1.
Proof.
  induction candidates as [|[h c] rest IH]; simpl; intros Hs.
  - repeat constructor.
  - apply StronglySorted_inv in Hs as [Hrest Hall].
    destruct (hash_compare hash h) eqn:E; simpl.
    + by constructor.
    + constructor; [by constructor|].
      constructor; [done|].
      eapply Forall_impl; [exact Hall|].
      intros y Hy. by eapply hash_compare_lt_trans.
    + constructor; [by apply IH|].
      apply Forall_forall. intros y Hy.
      apply cm_update_keys in Hy as [->|Hy].
      * by apply hash_compare_gt_lt.
      * rewrite Forall_forall in Hall. by apply Hall.
Qed.

Section Sorted.
Variable hm : HmSearchImpl.

Lemma add_hash_candidates_from_sorted fuel :
  forall candidates match_ hashes n r,
  candidates_sorted candidates ->
  add_hash_candidates_from hm fuel candidates match_ hashes n = Some r ->
  candidates_sorted r.
Proof.
  induction fuel as [|fuel IH]; intros candidates match_ hashes n r Hc;
    simpl; case_decide; intros E; simplify_eq; try done.
  case_decide; [|done].
  eapply IH; [|exact E]. by apply cm_update_sorted.
Qed.

Lemma probe_sorted (db : DB) (key : list byte) match_ candidates r :
  candidates_sorted candidates ->
  probe hm db key match_ candidates = Some r ->
  candidates_sorted r.
Proof.
  intros Hc. unfold probe. destruct (leveldb.Get db key) as [status hashes].
  destruct (leveldb.ok status); [|by intros [= <-]].
  unfold add_hash_candidates. case_decide.
  - destruct hashes; intros; by simplify_eq.
  - by apply add_hash_candidates_from_sorted.
Qed.

Lemma variants_loop_sorted (db : DB) pbyte n :
  forall pbit key candidates key' r,
  candidates_sorted candidates ->
  variants_loop hm db pbyte n pbit key candidates = Some (key', r) ->
  candidates_sorted r.
Proof.
  induction n as [|n IH]; intros pbit key candidates key' r Hc E; simpl in E.
  - by simplify_eq.
  - destruct (shl 1 (7 - Z.rem pbit 8)) as [f|]; [|done]. simpl in E.
    destruct (xor_at key _ _) as [key1|]; [|done]. simpl in E.
    destruct (probe hm db key1 1 candidates) as [c1|] eqn:Ep; [|done].
    simpl in E.
    destruct (xor_at key1 _ _) as [key2|]; [|done]. simpl in E.
    eapply IH; [|exact E]. eapply probe_sorted; done.
Qed.

Lemma get_candidates_loop_sorted (db : DB) query n :
  forall i candidates r,
  candidates_sorted candidates ->
  get_candidates_loop hm db query n i candidates = Some r ->
  candidates_sorted r.
Proof.
  induction n as [|n IH]; intros i candidates r Hc E; simpl in E.
  - by simplify_eq.
  - destruct (get_partition_key hm query i) as [[key bits]|]; [|done].
    simpl in E.
    destruct (probe hm db key 0 candidates) as [c1|] eqn:Ep; [|done].
    simpl in E.
    destruct (variants_loop hm db _ _ _ key c1) as [[key' c2]|] eqn:Ev; [|done].
    simpl in E.
    eapply IH; [|exact E].
    eapply variants_loop_sorted; [|exact Ev]. eapply probe_sorted; done.
Qed.

Lemma lookup_loop_sublist query m candidates :
  forall added : list (hash_string * Z),
  lookup_loop hm query m candidates [] = Some added ->
  sublist added.*1 candidates.*1.
Proof.
  induction candidates as [|[hash cand] rest IH]; intros added E; simpl in E.
  - injection E as <-. constructor.
  - destruct (valid_candidate hm cand);
      [|simpl; apply sublist_cons; by apply IH].
    destruct (hamming_distance query hash) as [d|]; [|done]. simpl in E.
    case_decide; [|simpl; apply sublist_cons; by apply IH].
    rewrite lookup_loop_app in E.
    destruct (lookup_loop hm query m rest []) as [tl|] eqn:Et; [|done].
    simpl in E. injection E as <-. simpl.
    apply sublist_skip. by apply IH.
Qed.

End Sorted.

Lemma sorted_sublist (l1 l2 : list hash_string) :
  sublist l1 l2 ->
  StronglySorted (fun a b => hash_compare a b = Lt) l2 ->
  StronglySorted (fun a b => hash_compare a b = Lt) l1.
Proof.
  induction 1 as [|x l1 l2 Hsub IH|x l1 l2 Hsub IH]; intros Hs.
  - constructor.
  - apply StronglySorted_inv in Hs as [Hrest Hall].
    constructor; [by apply IH|].
    apply Forall_forall. intros y Hy. rewrite Forall_forall in Hall.
    apply Hall. by eapply elem_of_sublist.
  - apply StronglySorted_inv in Hs as [Hrest _]. by apply IH.
Qed.

Lemma sorted_NoDup (l : list hash_string) :
  StronglySorted (fun a b => hash_compare a b = Lt) l -> NoDup l.
Proof.
  induction 1 as [|x l Hs IH Hall]; constructor; [|done].
  intros Hin. rewrite Forall_forall in Hall.
  specialize (Hall x Hin).
  by rewrite (proj2 (hash_compare_eq x x) eq_refl) in Hall.
Qed.

(** X5. Deduplication and order: the hashes one [lookup] appends are
    pairwise distinct and come in strictly increasing byte order, the
    order of the candidate map. *)
Theorem lookup_results_distinct (hm : HmSearchImpl) (query : hash_string)
    (result : LookupResultList) (m : Z) (msg : string)
    (result' : LookupResultList) :
  lookup hm query result m = Some (true, msg, result') ->
  exists added : list (hash_string * Z),
    result' = result ++ added
    /\ StronglySorted (fun a b => hash_compare a b = Lt) added.*1
    /\ NoDup added.*1.
Proof.
  unfold lookup. case_decide; [done|].
  destruct (_db hm) as [db|]; [|done].
  destruct (get_candidates hm db query []) as [candidates|] eqn:Ec; [|done].
  simpl. rewrite lookup_loop_app.
  destruct (lookup_loop hm query m candidates []) as [added|] eqn:El; [|done].
  simpl. intros [= _ <-]. exists added. split; [done|].
  assert (StronglySorted (fun a b => hash_compare a b = Lt) added.*1) as Hs.
  { eapply sorted_sublist; [by eapply lookup_loop_sublist|].
    eapply (get_candidates_loop_sorted hm db query _ 0 []); [|exact Ec].
    constructor. }
  split; [done|]. by apply sorted_NoDup.
Qed.

Lemma lookup_results_distinct_witness :
  exists added : list (hash_string * Z),
    [([xa4], 1); ([xe5], 1)] = [] ++ added
    /\ StronglySorted (fun a b => hash_compare a b = Lt) added.*1
    /\ NoDup added.*1.
Proof.
  apply (lookup_results_distinct index_S5 [xa5] [] (-1) ""%string).
  vm_compute. reflexivity.
Defined.

(** ** Where the results come from *)

(** On a slot that holds one hash [add_hash_candidates] makes one
    round. *)
Lemma add_hash_candidates_single hm candidates match_ (v : list byte) :
  0 < _hash_bytes hm ->
  Z.of_nat (length v) = _hash_bytes hm ->
  add_hash_candidates hm candidates match_ v
  = Some (cm_update candidates v (bump match_)).
Proof.
  intros Hpos Hlen. unfold add_hash_candidates.
  rewrite decide_False by lia.
  assert (take (Z.to_nat (_hash_bytes hm)) (v ++ [x00]) = v) as Hchunk.
  { replace (Z.to_nat (_hash_bytes hm)) with (length v) by lia.
    apply take_app_length. }
  destruct (length v) as [|fuel] eqn:El; [lia|].
  simpl. rewrite El.
  rewrite decide_True by lia. rewrite decide_True by lia.
  rewrite drop_0, Hchunk.
  destruct fuel; simpl; rewrite El; rewrite decide_False by lia; done.
Qed.

Lemma xor_at_head key idx flip key1 :
  xor_at key idx flip = Some key1 -> 1 <= idx -> head key1 = head key.
Proof.
  unfold xor_at. case_decide; [|done].
  destruct (key !! Z.to_nat idx) as [x|]; [|done]. simpl.
  intros [= <-] Hidx.
  destruct key as [|x0 key]; [done|].
  destruct (Z.to_nat idx) eqn:E; [lia|done].
Qed.

Section FromStore.
Variables (hm : HmSearchImpl) (db : DB).
Hypothesis Hpos : 0 < _hash_bytes hm.
Hypothesis Hsized : slots_sized hm db.

Lemma probe_in_slot (key : list byte) match_ candidates r :
  partition_key key ->
  Forall (in_slot db) candidates.*1 ->
  probe hm db key match_ candidates = Some r ->
  Forall (in_slot db) r.*1.
Proof.
  intros Hkey Hc. unfold probe, leveldb.Get.
  destruct (db !! key) as [v|] eqn:Ev; simpl; [|by intros [= <-]].
  rewrite add_hash_candidates_single by (done || by apply (Hsized key)).
  intros [= <-]. apply Forall_forall. intros x Hx.
  apply cm_update_keys in Hx as [->|Hx].
  - by exists key.
  - rewrite Forall_forall in Hc. by apply Hc.
Qed.

Lemma variants_loop_in_slot pbyte n :
  forall pbit key candidates key' r,
  0 <= pbyte -> pbyte * 8 <= pbit ->
  partition_key key ->
  Forall (in_slot db) candidates.*1 ->
  variants_loop hm db pbyte n pbit key candidates = Some (key', r) ->
  Forall (in_slot db) r.*1.
Proof.
  induction n as [|n IH]; intros pbit key candidates key' r Hpb Hpbit Hkey Hc E;
    simpl in E.
  - by simplify_eq.
  - destruct (shl 1 (7 - Z.rem pbit 8)) as [f|]; [|done]. simpl in E.
    destruct (xor_at key (Z.quot pbit 8 - pbyte + 2) (U8.of_Z f))
      as [key1|] eqn:Ex; [|done].
    simpl in E.
    destruct (probe hm db key1 1 candidates) as [c1|] eqn:Ep; [|done].
    simpl in E. rewrite (xor_at_twice _ _ _ _ Ex) in E. simpl in E.
    eapply (IH (pbit + 1)); [done|lia|done| |exact E].
    eapply probe_in_slot; [|done|exact Ep].
    unfold partition_key. rewrite (xor_at_head _ _ _ _ Ex); [done|].
    rewrite Z.quot_div_nonneg by lia. lia.
Qed.

Lemma get_candidates_loop_in_slot query n :
  forall i candidates r,
  0 <= i -> 0 <= _partition_bits hm ->
  Forall (in_slot db) candidates.*1 ->
  get_candidates_loop hm db query n i candidates = Some r ->
  Forall (in_slot db) r.*1.
Proof.
  induction n as [|n IH]; intros i candidates r Hi Hb Hc E; simpl in E.
  - by simplify_eq.
  - destruct (get_partition_key hm query i) as [[key bits]|] eqn:Ek; [|done].
    simpl in E.
    destruct (probe hm db key 0 candidates) as [c1|] eqn:Ep; [|done].
    simpl in E.
    destruct (variants_loop hm db _ _ _ key c1) as [[key' c2]|] eqn:Ev; [|done].
    simpl in E.
    assert (0 <= i * _partition_bits hm) by (apply Z.mul_nonneg_nonneg; lia).
    eapply (IH (i + 1)); [lia|done| |exact E].
    eapply variants_loop_in_slot; [| | | |exact Ev].
    + rewrite Z.quot_div_nonneg by lia. lia.
    + rewrite Z.quot_div_nonneg by lia. lia.
    + by eapply get_partition_key_head.
    + eapply probe_in_slot; [|done|exact Ep].
      by eapply get_partition_key_head.
Qed.

End FromStore.

(** The hashes [lookup] appends are values of partition slots. *)
Lemma lookup_from_store (db : DB) (B k : Z) (query : hash_string)
    (result : LookupResultList) (m : Z) (msg : string)
    (result' : LookupResultList) :
  valid_params B k ->
  slots_sized (HmSearchImpl_new (Some db) B k) db ->
  lookup (HmSearchImpl_new (Some db) B k) query result m
  = Some (true, msg, result') ->
  exists added : list (hash_string * Z),
    result' = result ++ added
    /\ forall H d, (H, d) ∈ added -> in_slot db H.
Proof.
  intros Hv Hdb. pose proof Hv as (HB & HB8 & Hk & _).
  unfold lookup. case_decide; [done|].
  change (_db _) with (Some db). cbv beta iota.
  destruct (get_candidates _ db query []) as [candidates|] eqn:Ec; [|done].
  simpl. rewrite lookup_loop_app.
  destruct (lookup_loop _ query m candidates []) as [added|] eqn:El; [|done].
  simpl. intros [= _ <-]. exists added. split; [done|].
  intros h d Hin.
  assert (Forall (in_slot db) candidates.*1) as Hc.
  { unfold get_candidates in Ec.
    eapply (get_candidates_loop_in_slot _ db) with (i := 0);
      [| | | | |exact Ec]; try done.
    - rewrite hash_bytes_exact by lia. unfold ceil_div. lia.
    - assert (0 < ceil_div B ((k + 3) / 2)) by (apply ceil_div_pos; lia).
      change (_partition_bits _)
        with (ceil_div B (_partitions (HmSearchImpl_new (Some db) B k))).
      rewrite partitions_new by lia. lia. }
  rewrite Forall_forall in Hc. apply Hc.
  eapply elem_of_sublist; [|by eapply lookup_loop_sublist].
  apply list_elem_of_fmap. by exists (h, d).
Qed.

(** X3. [lookup] invents nothing: every hash it returns is the value of a
    partition slot of the store. *)
Theorem lookup_returns_stored (db : DB) (B k : Z) (query : hash_string)
    (result : LookupResultList) (m : Z) (msg : string)
    (result' : LookupResultList) :
  valid_params B k ->
  slots_sized (HmSearchImpl_new (Some db) B k) db ->
  lookup (HmSearchImpl_new (Some db) B k) query result m
  = Some (true, msg, result') ->
  exists added : list (hash_string * Z),
    result' = result ++ added
    /\ forall H d, (H, d) ∈ added -> in_slot db H.
Proof. apply lookup_from_store. Qed.

Lemma lookup_returns_stored_witness :
  exists added : list (hash_string * Z),
    [([xa5], 1)] = [] ++ added
    /\ forall H d, (H, d) ∈ added -> in_slot store_a5 H.
Proof.
  destruct (insert_keeps_slots_sized store_8_2 8 2 [xa5] ""%string _
              ltac:(lia) (fresh_slots_sized _ _ store_8_2_fresh)
              (insert_a5 store_8_2)) as (db' & Heq & Hdb' & _).
  injection Heq as <-.
  apply (lookup_returns_stored store_a5 8 2 [xa4] [] (-1) ""%string).
  - exact valid_8_2.
  - exact Hdb'.
  - vm_compute. reflexivity.
Defined.

(** X4. Soundness with respect to the inserts: on an index that starts
    without partition slots, every hash [lookup] returns was
    inserted. *)
Theorem lookup_returns_inserted (db : DB) (B k : Z)
    (hashes : list hash_string) (hm' : HmSearchImpl) (query : hash_string)
    (result : LookupResultList) (m : Z) (msg : string)
    (result' : LookupResultList) :
  valid_params B k ->
  (forall key, partition_key key -> db !! key = None) ->
  inserts (HmSearchImpl_new (Some db) B k) hashes hm' ->
  lookup hm' query result m = Some (true, msg, result') ->
  exists added : list (hash_string * Z),
    result' = result ++ added
    /\ forall H d, (H, d) ∈ added -> H ∈ hashes.
Proof.
  intros Hv Hfresh Hins Hlookup. pose proof Hv as (HB & _).
  destruct (inserts_spec _ _ _ Hins db eq_refl) as (db' & -> & Hslots).
  change (set_db (HmSearchImpl_new (Some db) B k) (Some db'))
    with (HmSearchImpl_new (Some db') B k) in Hlookup.
  apply lookup_from_store in Hlookup as (added & -> & Hadded); [|done|].
  - exists added. split; [done|]. intros H d Hin.
    destruct (Hadded H d Hin) as (key & Hkey & Hv').
    destruct (Hslots key H Hv') as [[Hold _]|(_ & older & newer & -> & _)].
    + by rewrite Hfresh in Hold.
    + apply elem_of_app. right. apply list_elem_of_here.
  - intros key v Hkey Hv'.
    destruct (Hslots key v Hv') as [[Hold _]|(Hlen & _)].
    + by rewrite Hfresh in Hold.
    + rewrite hash_bytes_new in Hlen by lia.
      by rewrite hash_bytes_exact by lia.
Qed.

Lemma lookup_returns_inserted_witness :
  exists added : list (hash_string * Z),
    [([xa4], 1); ([xe5], 1)] = [] ++ added
    /\ forall H d, (H, d) ∈ added -> H ∈ [[xa5]; [xa4]; [xe5]].
Proof.
  apply (lookup_returns_inserted store_8_2 8 2 [[xa5]; [xa4]; [xe5]]
           index_S5 [xa5] [] (-1) ""%string).
  - exact valid_8_2.
  - exact store_8_2_fresh.
  - apply insert_all_inserts. vm_compute. reflexivity.
  - vm_compute. reflexivity.
Defined.

(** ** Settings records: [init], then [open] *)

Lemma chars_of_bytes_of_string s :
  chars_of_bytes (bytes_of_string s) = list_ascii_of_string s.
Proof.
  unfold chars_of_bytes, bytes_of_string, list_byte_of_string.
  induction (list_ascii_of_string s) as [|c l IH]; [done|].
  cbn [List.map fmap list_fmap]. rewrite ascii_of_byte_of_ascii. f_equal.
  exact IH.
Qed.

(** The characters [%u] prints for the digits [d]. *)
Lemma uint_chars_digits d :
  Forall (fun c => is_digit 10 c = true /\ c <> NUL)
         (list_ascii_of_string (NilEmpty.string_of_uint d)).
Proof.
  induction d; simpl; constructor; try done; by vm_compute.
Qed.

Lemma c_str_no_NUL (l : list ascii) :
  Forall (fun c => c <> NUL) l -> c_str l = l.
Proof.
  induction 1 as [|c l Hc Hl IH]; simpl; [done|].
  by rewrite decide_False, IH.
Qed.

Lemma span_while_all {A} (p : A -> bool) (l : list A) :
  Forall (fun c => p c = true) l -> span_while p l = l.
Proof.
  induction 1 as [|c l Hc Hl IH]; simpl; [done|]. by rewrite Hc, IH.
Qed.

Lemma foldl_uint d : forall acc,
  foldl (fun acc c => acc * 10 + default 0 (digit_value c)) acc
        (list_ascii_of_string (NilEmpty.string_of_uint d))
  = Z.of_N (Unsigned.of_lu (Decimal.rev d))
    + acc * 10 ^ Z.of_N (Unsigned.usize d).
Proof.
  induction d; intros acc;
    [simpl; lia|
     unfold Decimal.rev; simpl revapp; rewrite Unsigned.of_lu_revapp;
     simpl Unsigned.usize; simpl list_ascii_of_string; cbn [foldl];
     rewrite IHd, N2Z.inj_add, N2Z.inj_mul, N2Z.inj_pow, N2Z.inj_succ,
       Z.pow_succ_r by lia;
     fold (Decimal.rev d);
     match goal with
     | |- context [default 0 (digit_value ?c)] =>
         let v := eval vm_compute in (default 0 (digit_value c)) in
         change (default 0 (digit_value c)) with v
     end;
     match goal with
     | |- context [Z.of_N (Unsigned.of_lu ?x)] =>
         match x with
         | Decimal.rev d => fail 1
         | _ => let v := eval vm_compute in (Z.of_N (Unsigned.of_lu x)) in
                change (Z.of_N (Unsigned.of_lu x)) with v
         end
     end;
     change (Z.of_N 10) with 10; ring ..].
Qed.

Lemma is_digit_10_cases c :
  is_digit 10 c = true ->
  c ∈ ["0"; "1"; "2"; "3"; "4"; "5"; "6"; "7"; "8"; "9"]%char.
Proof.
  destruct c as [[] [] [] [] [] [] [] []]; intros Hd; vm_compute in Hd;
    try discriminate Hd; set_solver.
Qed.

(** [strtoul] in base 10 on a string of decimal digits. *)
Lemma strtoul_decimal c l :
  Forall (fun c => is_digit 10 c = true /\ c <> NUL) (c :: l) ->
  (strtoul (c :: l) 10).1
  = let v := foldl (fun acc c => acc * 10 + default 0 (digit_value c)) 0 (c :: l) in
    if decide (v > ULONG_MAX) then ULONG_MAX else v.
Proof.
  intros Hall.
  assert (c_str (c :: l) = c :: l) as Hc.
  { apply c_str_no_NUL. eapply Forall_impl; [exact Hall|]. by intros ? [_ ?]. }
  assert (span_while (is_digit 10) (c :: l) = c :: l) as Hs.
  { apply span_while_all. eapply Forall_impl; [exact Hall|]. by intros ? [? _]. }
  apply Forall_cons in Hall as [[Hd _] _].
  apply is_digit_10_cases in Hd.
  unfold strtoul. rewrite Hc.
  set_unfold in Hd.
  destruct Hd as [->|[->|[->|[->|[->|[->|[->|[->|[->|[->|[]]]]]]]]]]];
    try (cbn [span_while]; simpl length; cbn [drop];
         rewrite Hs; cbn [fst]; reflexivity).
  (* the digit 0: the prefix test looks at the next two characters *)
  cbn [span_while]. simpl length. cbn [drop].
  destruct l as [|x [|d l]];
    [cbn [drop]; rewrite Hs; reflexivity..|].
  replace (bool_decide (10 = 16)) with false by done.
  cbn [andb drop]. rewrite Hs. reflexivity.
Qed.

Lemma strtoul_format_u n :
  0 < n < 2 ^ 64 ->
  (strtoul (chars_of_bytes (bytes_of_string (format_u n))) 10).1 = n.
Proof.
  intros Hn. rewrite chars_of_bytes_of_string. unfold format_u.
  destruct (Z.to_N n) as [|p] eqn:Ep; [lia|].
  pose proof (DecimalN.Unsigned.of_to (N.pos p)) as Hof.
  unfold N.of_uint in Hof. rewrite Unsigned.of_uint_alt in Hof.
  pose proof (Unsigned.to_uint_nonnil p) as Hnil.
  change (N.to_uint (N.pos p)) with (Pos.to_uint p) in *.
  pose proof (uint_chars_digits (Pos.to_uint p)) as Hdig.
  pose proof (foldl_uint (Pos.to_uint p) 0) as Hfold.
  rewrite Hof in Hfold.
  assert (NilZero.string_of_uint (Pos.to_uint p)
          = NilEmpty.string_of_uint (Pos.to_uint p)) as ->
    by (by destruct (Pos.to_uint p)).
  destruct (list_ascii_of_string (NilEmpty.string_of_uint (Pos.to_uint p)))
    as [|c l] eqn:El.
  { by destruct (Pos.to_uint p). }
  rewrite strtoul_decimal by done. cbv zeta. rewrite Hfold.
  rewrite decide_False by (unfold ULONG_MAX; lia). lia.
Qed.

(** ** [open] after [init] *)

(** [open] on a store that holds both settings records. *)
Lemma open_found (fs : leveldb.FS) (path : string) (db : DB) (hb me : list byte) :
  fs !! path = Some db ->
  db !! bytes_of_string "_hb" = Some hb ->
  db !! bytes_of_string "_me" = Some me ->
  open fs path
  = let hash_bits := (strtoul (chars_of_bytes hb) 10).1 in
    let max_error := (strtoul (chars_of_bytes me) 10).1 in
    if bool_decide (hash_bits = 0) || bool_decide (max_error = 0)
    then (None, "OK"%string)
    else (Some (HmSearchImpl_new (Some db) (int_of_ulong hash_bits)
                                 (int_of_ulong max_error)), ""%string).
Proof.
  intros Hfs Hhb Hme. unfold open, leveldb.Open, leveldb.Get.
  rewrite Hfs. cbn [leveldb.error_if_exists]. cbv iota beta.
  rewrite Hhb, Hme. cbv zeta. cbn [leveldb.ok negb orb leveldb.ToString].
  by destruct (bool_decide ((strtoul (chars_of_bytes hb) 10).1 = 0)),
              (bool_decide ((strtoul (chars_of_bytes me) 10).1 = 0)).
Qed.

Lemma int_of_ulong_small z : 0 <= z < 2 ^ 31 -> int_of_ulong z = z.
Proof. unfold int_of_ulong. lia. Qed.

Lemma valid_params_accepted B k : valid_params B k -> init_validate B k = None.
Proof.
  intros (HB & HB8 & Hk & Hk'). rewrite init_validate_spec.
  rewrite decide_False by lia. by rewrite decide_False by lia.
Qed.

(** X14. [open] reads the handle's parameters back from the decimal records
    [_hb] and [_me]; it does not apply the checks of [init] to them.
    The values are kept to [1 <= B <= 2^31 - 8] and [1 <= k <= 2^31 - 4],
    where the constructor's [int] arithmetic does not overflow. *)
Theorem open_reads_settings (fs : leveldb.FS) (path : string) (db : DB) (B k : Z) :
  0 < B <= 2 ^ 31 - 8 -> 0 < k <= 2 ^ 31 - 4 ->
  fs !! path = Some db ->
  db !! bytes_of_string "_hb" = Some (bytes_of_string (format_u B)) ->
  db !! bytes_of_string "_me" = Some (bytes_of_string (format_u k)) ->
  open fs path = (Some (HmSearchImpl_new (Some db) B k), ""%string).
Proof.
  intros HB Hk Hfs Hhb Hme.
  rewrite (open_found fs path db _ _ Hfs Hhb Hme). cbv zeta.
  rewrite !strtoul_format_u by lia.
  rewrite !bool_decide_eq_false_2 by lia. cbn [orb].
  by rewrite !int_of_ulong_small by lia.
Qed.

Lemma open_reads_settings_witness :
  open {[ "db"%string :=
            <[bytes_of_string "_me" := bytes_of_string (format_u 20)]>
              (<[bytes_of_string "_hb" := bytes_of_string (format_u 12)]> ∅) ]}
       "db"
  = (Some (HmSearchImpl_new
             (Some (<[bytes_of_string "_me" := bytes_of_string (format_u 20)]>
                      (<[bytes_of_string "_hb" := bytes_of_string (format_u 12)]> ∅)))
             12 20), ""%string).
Proof.
  apply open_reads_settings; [lia | lia | apply lookup_singleton_eq | |].
  - rewrite lookup_insert_ne by discriminate. apply lookup_insert_eq.
  - apply lookup_insert_eq.
Defined.

(** X13. A store created by [init] with accepted parameters opens with these
    parameters, on a database holding the two settings records only. *)
Theorem init_then_open (fs : leveldb.FS) (path : string) (B k : Z) :
  valid_params B k -> fs !! path = None ->
  let db : DB := <[bytes_of_string "_me" := bytes_of_string (format_u k)]>
                   (<[bytes_of_string "_hb" := bytes_of_string (format_u B)]> ∅) in
  init fs path B k = (true, ""%string, <[path := db]> fs)
  /\ open (<[path := db]> fs) path
     = (Some (HmSearchImpl_new (Some db) B k), ""%string).
Proof.
  intros Hv Hfs db. pose proof Hv as (HB & HB8 & Hk & Hk'). split.
  - unfold init. rewrite (valid_params_accepted B k Hv).
    unfold leveldb.Open. rewrite Hfs. cbn [leveldb.create_if_missing].
    unfold leveldb.Put. cbn [leveldb.ok negb].
    by rewrite insert_insert_eq.
  - assert (db !! bytes_of_string "_hb" = Some (bytes_of_string (format_u B)))
      as Hhb.
    { unfold db. rewrite lookup_insert_ne by discriminate.
      apply lookup_insert_eq. }
    assert (db !! bytes_of_string "_me" = Some (bytes_of_string (format_u k)))
      as Hme by apply lookup_insert_eq.
    rewrite (open_found (<[path := db]> fs) path db _ _
               (lookup_insert_eq _ _ _) Hhb Hme). cbv zeta.
    rewrite !strtoul_format_u by lia.
    rewrite !bool_decide_eq_false_2 by lia. cbn [orb].
    by rewrite !int_of_ulong_small by lia.
Qed.

Lemma init_then_open_witness :
  let db : DB := <[bytes_of_string "_me" := bytes_of_string (format_u 2)]>
                   (<[bytes_of_string "_hb" := bytes_of_string (format_u 8)]> ∅) in
  init ∅ "db" 8 2 = (true, ""%string, <["db"%string := db]> ∅)
  /\ open (<["db"%string := db]> ∅) "db"
     = (Some (HmSearchImpl_new (Some db) 8 2), ""%string).
Proof.
  apply (init_then_open ∅ "db" 8 2); [exact valid_8_2 | apply lookup_empty].
Defined.

(** X16. [init] never touches a store that is already there: whatever the
    parameters, the call fails and the directory tree is unchanged. *)
Theorem init_keeps_existing (fs : leveldb.FS) (path : string) (db : DB) (B k : Z) :
  fs !! path = Some db ->
  (init fs path B k).1.1 = false /\ (init fs path B k).2 = fs.
Proof.
  intros Hfs. unfold init, leveldb.Open.
  destruct (init_validate B k); [done|]. by rewrite Hfs.
Qed.

Lemma init_keeps_existing_witness :
  (init {[ "db"%string := (∅ : DB) ]} "db" 8 2).1.1 = false
  /\ (init {[ "db"%string := (∅ : DB) ]} "db" 8 2).2 = {[ "db"%string := (∅ : DB) ]}.
Proof. apply (init_keeps_existing _ "db" ∅ 8 2). apply lookup_singleton_eq. Defined.

(** X15. When a settings record is there but reads as zero, [open] fails and
    the error message is the text of the successful [Get]: "OK". *)
Theorem open_zero_setting (fs : leveldb.FS) (path : string) (db : DB) (hb me : list byte) :
  fs !! path = Some db ->
  db !! bytes_of_string "_hb" = Some hb ->
  db !! bytes_of_string "_me" = Some me ->
  (strtoul (chars_of_bytes hb) 10).1 = 0
  \/ (strtoul (chars_of_bytes me) 10).1 = 0 ->
  open fs path = (None, "OK"%string).
Proof.
  intros Hfs Hhb Hme Hz.
  rewrite (open_found fs path db hb me Hfs Hhb Hme). cbv zeta.
  destruct Hz as [-> | ->]; [done|].
  by rewrite orb_true_r.
Qed.

Lemma open_zero_setting_witness :
  open {[ "db"%string :=
            <[bytes_of_string "_me" := bytes_of_string "two"]>
              (<[bytes_of_string "_hb" := bytes_of_string "8"]> (∅ : DB)) ]}
       "db"
  = (None, "OK"%string).
Proof.
  eapply open_zero_setting.
  - apply lookup_singleton_eq.
  - rewrite lookup_insert_ne by discriminate. apply lookup_insert_eq.
  - apply lookup_insert_eq.
  - right. reflexivity.
Defined.

(** ** [hamming_distance] as a distance *)

Lemma differ_sym X Y g : differ X Y g = differ Y X g.
Proof. unfold differ. by rewrite xorb_comm. Qed.

Lemma differ_triangle X Y Z g : differ X Z g <= differ X Y g + differ Y Z g.
Proof.
  unfold differ.
  by destruct (hash_bit_at X g), (hash_bit_at Y g), (hash_bit_at Z g).
Qed.

Lemma differing_sym X Y n : forall s, differing X Y s n = differing Y X s n.
Proof.
  induction n as [|n IH]; intros s; simpl; [done|].
  by rewrite IH, differ_sym.
Qed.

Lemma differing_triangle X Y Z n : forall s,
  differing X Z s n <= differing X Y s n + differing Y Z s n.
Proof.
  induction n as [|n IH]; intros s; simpl; [done|].
  specialize (IH (s + 1)). pose proof (differ_triangle X Y Z s). lia.
Qed.

Lemma differing_upper X Y n : forall s, differing X Y s n <= Z.of_nat n.
Proof.
  induction n as [|n IH]; intros s; simpl differing; [done|].
  specialize (IH (s + 1)). unfold differ.
  destruct (xorb _ _); simpl Z.b2z; lia.
Qed.

Lemma differing_same X n : forall s, differing X X s n = 0.
Proof.
  induction n as [|n IH]; intros s; simpl; [done|].
  rewrite IH. unfold differ. by rewrite xorb_nilpotent.
Qed.

(** Hashes of one length whose bits all agree are equal. *)
Lemma hash_ext X : forall Y : hash_string,
  length X = length Y ->
  (forall g, 0 <= g < 8 * Z.of_nat (length X) ->
     hash_bit_at X g = hash_bit_at Y g) ->
  X = Y.
Proof.
  induction X as [|a X IH]; intros [|b Y] Hlen Hbits; simpl in Hlen; try done.
  f_equal.
  - apply byte_ext. intros t Ht.
    specialize (Hbits t ltac:(simpl length; lia)).
    unfold hash_bit_at in Hbits.
    replace (t / 8) with 0 in Hbits by lia.
    replace (t mod 8) with t in Hbits by lia.
    exact Hbits.
  - apply IH; [lia|]. intros g Hg.
    specialize (Hbits (g + 8) ltac:(simpl length; lia)).
    by rewrite !hash_bit_at_cons in Hbits by lia.
Qed.

(** X17. The table-driven [hamming_distance] counts the bit positions at
    which two hashes of the same length differ. *)
Theorem hamming_distance_counts_bits (query hash : hash_string) :
  length query = length hash ->
  hamming_distance query hash
  = Some (differing query hash 0 (8 * length query)).
Proof.
  intros Hlen. rewrite hamming_distance_spec by done.
  by rewrite Hamming_differing.
Qed.

Lemma hamming_distance_counts_bits_witness :
  hamming_distance [xa5; x0f] [xa4; xf0]
  = Some (differing [xa5; x0f] [xa4; xf0] 0 (8 * length [xa5; x0f])).
Proof. apply hamming_distance_counts_bits. reflexivity. Defined.

(** X18. The distance of two hashes of the same length is 0 exactly when
    they are equal. *)
Theorem hamming_distance_zero (query hash : hash_string) :
  length query = length hash ->
  hamming_distance query hash = Some 0 <-> query = hash.
Proof.
  intros Hlen. rewrite hamming_distance_spec by done.
  rewrite Hamming_differing by done. split.
  - intros [= E]. apply hash_ext; [done|]. intros g Hg.
    eapply differing_0; [exact E|lia].
  - intros ->. by rewrite differing_same.
Qed.

Lemma hamming_distance_zero_witness :
  hamming_distance [xa5; x0f] [xa5; x0f] = Some 0 <-> [xa5; x0f] = [xa5; x0f].
Proof. apply hamming_distance_zero. reflexivity. Defined.

(** X19. On hashes of one length [hamming_distance] is symmetric, lies
    between 0 and the number of bits, and obeys the triangle
    inequality. *)
Theorem hamming_distance_metric (X Y Z : hash_string) :
  length X = length Y -> length Y = length Z ->
  exists dXY dYZ dXZ,
    hamming_distance X Y = Some dXY
    /\ hamming_distance Y X = Some dXY
    /\ hamming_distance Y Z = Some dYZ
    /\ hamming_distance X Z = Some dXZ
    /\ 0 <= dXY <= 8 * Z.of_nat (length X)
    /\ dXZ <= dXY + dYZ.
Proof.
  intros HXY HYZ.
  exists (differing X Y 0 (8 * length X)), (differing Y Z 0 (8 * length X)),
         (differing X Z 0 (8 * length X)).
  rewrite !hamming_distance_spec by congruence.
  rewrite !Hamming_differing by congruence.
  rewrite <- HXY, (differing_sym Y X).
  repeat split.
  - apply differing_nonneg.
  - pose proof (differing_upper X Y (8 * length X) 0). lia.
  - apply differing_triangle.
Qed.

Lemma hamming_distance_metric_witness :
  exists dXY dYZ dXZ,
    hamming_distance [xa5] [xa4] = Some dXY
    /\ hamming_distance [xa4] [xa5] = Some dXY
    /\ hamming_distance [xa4] [xe5] = Some dYZ
    /\ hamming_distance [xa5] [xe5] = Some dXZ
    /\ 0 <= dXY <= 8 * Z.of_nat (length [xa5])
    /\ dXZ <= dXY + dYZ.
Proof. apply hamming_distance_metric; reflexivity. Defined.

(** ** [hamming_distance] on strings of different lengths *)

Lemma hamming_from_short rest : forall (hash : hash_string) i d,
  (0 < length rest)%nat ->
  Z.of_nat (length hash) < i + Z.of_nat (length rest) - 1 ->
  0 <= i ->
  hamming_from rest hash i d = None.
Proof.
  induction rest as [|q rest IH]; intros hash i d Hpos Hlen Hi;
    simpl in *; [lia|].
  destruct (at_ hash i) as [h|] eqn:Eh; [|done]. simpl.
  destruct (one_bits !! _) as [n|]; [|done]. simpl.
  destruct rest as [|q' rest].
  - unfold at_ in Eh. simpl in Hlen.
    rewrite decide_False in Eh by lia. by rewrite decide_False in Eh by lia.
  - apply IH; simpl in *; lia.
Qed.

(** X20. The loop runs over the bytes of the query and reads the stored hash
    at the same indices: a hash shorter than the query by two bytes or
    more is read out of bounds. *)
Theorem hamming_distance_short_hash (query hash : hash_string) :
  (length hash + 1 < length query)%nat ->
  hamming_distance query hash = None.
Proof.
  intros Hlen. unfold hamming_distance.
  apply hamming_from_short; lia.
Qed.

Lemma hamming_distance_short_hash_witness :
  hamming_distance [xa5; x0f; x00] [xa5] = None.
Proof. apply hamming_distance_short_hash. simpl. lia. Defined.

(** X21. Bytes of the stored hash past the length of the query are not
    looked at. *)
Theorem hamming_distance_ignores_tail (query hash tail : hash_string) :
  length query = length hash ->
  hamming_distance query (hash ++ tail) = hamming_distance query hash.
Proof.
  intros Hlen. unfold hamming_distance.
  pose proof (hamming_from_spec query [] (hash ++ tail) 0
                ltac:(rewrite length_app; lia)) as E1.
  pose proof (hamming_from_spec query [] hash 0 ltac:(lia)) as E2.
  change (hamming_from query (hash ++ tail) 0 0
          = Some (0 + Hamming query (hash ++ tail))) in E1.
  change (hamming_from query hash 0 0 = Some (0 + Hamming query hash)) in E2.
  rewrite E1, E2. clear E1 E2. do 2 f_equal. unfold Hamming. f_equal.
  revert hash Hlen. induction query as [|a q IH]; intros [|b h] Hlen;
    simpl in *; try done.
  f_equal. apply IH. lia.
Qed.

Lemma hamming_distance_ignores_tail_witness :
  hamming_distance [xa5] ([xa4] ++ [xff; xff]) = hamming_distance [xa5] [xa4].
Proof. apply hamming_distance_ignores_tail. reflexivity. Defined.

(** X22. The table [one_bits] has 256 entries, and entry [z] is the number
    of one bits of [z]. *)
Theorem one_bits_correct (z : Z) :
  0 <= z < 256 ->
  length one_bits = 256%nat
  /\ one_bits !! Z.to_nat z
     = Some (Z.b2z (Z.testbit z 0) + Z.b2z (Z.testbit z 1)
             + Z.b2z (Z.testbit z 2) + Z.b2z (Z.testbit z 3)
             + Z.b2z (Z.testbit z 4) + Z.b2z (Z.testbit z 5)
             + Z.b2z (Z.testbit z 6) + Z.b2z (Z.testbit z 7)).
Proof.
  intros Hz. split; [reflexivity|].
  rewrite one_bits_popcount by done. f_equal.
  unfold popcount. cbn [foldr seq].
  repeat match goal with
         | |- context [Z.of_nat ?n] =>
             let v := eval vm_compute in (Z.of_nat n) in
             change (Z.of_nat n) with v
         end.
  lia.
Qed.

Lemma one_bits_correct_witness :
  length one_bits = 256%nat
  /\ one_bits !! Z.to_nat 165
     = Some (Z.b2z (Z.testbit 165 0) + Z.b2z (Z.testbit 165 1)
             + Z.b2z (Z.testbit 165 2) + Z.b2z (Z.testbit 165 3)
             + Z.b2z (Z.testbit 165 4) + Z.b2z (Z.testbit 165 5)
             + Z.b2z (Z.testbit 165 6) + Z.b2z (Z.testbit 165 7)).
Proof. apply one_bits_correct. lia. Defined.

(** ** The hex codec on arbitrary strings *)

Lemma all_ascii_complete c : In c all_ascii.
Proof.
  unfold all_ascii. apply in_map_iff. exists (nat_of_ascii c).
  split; [apply ascii_nat_embedding|].
  apply in_seq. pose proof (nat_ascii_bounded c). lia.
Qed.

Lemma pair_ok_table :
  forallb (fun c0 =>
    forallb (fun c1 =>
      bool_decide (bool_decide (char_at [c0; c1; NUL]
                                  (strtoul [c0; c1; NUL] 16).2 = NUL)
                   = pair_ok c0 c1))
      all_ascii) all_ascii = true.
Proof. vm_compute. reflexivity. Qed.

(** [strtoul] reads a pair to its end exactly when the pair is
    [pair_ok]. *)
Lemma pair_ok_spec c0 c1 :
  char_at [c0; c1; NUL] (strtoul [c0; c1; NUL] 16).2 = NUL
  <-> pair_ok c0 c1 = true.
Proof.
  pose proof pair_ok_table as Ht.
  rewrite forallb_forall in Ht. specialize (Ht c0 (all_ascii_complete c0)).
  rewrite forallb_forall in Ht. specialize (Ht c1 (all_ascii_complete c1)).
  apply bool_decide_eq_true in Ht. rewrite <- Ht.
  by rewrite bool_decide_eq_true.
Qed.

Lemma parse_hexhash_loop_exact cs n : forall i acc,
  parse_hexhash_loop cs n i acc
  = if forallb (fun j => pair_ok (pair_at cs j).1 (pair_at cs j).2) (seq i n)
    then acc ++ ((fun j => U8.of_Z (strtoul [(pair_at cs j).1;
                                             (pair_at cs j).2; NUL] 16).1)
                   <$> seq i n)
    else [].
Proof.
  induction n as [|n IH]; intros i acc.
  - simpl. by rewrite app_nil_r.
  - cbn [parse_hexhash_loop seq forallb fmap list_fmap].
    unfold pair_at at 1 2. cbn [fst snd].
    pose proof (pair_ok_spec (char_at cs (i * 2)) (char_at cs (i * 2 + 1)))
      as Hok.
    destruct (strtoul [char_at cs (i * 2); char_at cs (i * 2 + 1); NUL] 16)
      as [v err] eqn:Es.
    cbn [snd] in Hok.
    destruct (pair_ok (char_at cs (i * 2)) (char_at cs (i * 2 + 1))) eqn:Ep.
    + rewrite decide_False by (intros Hne; apply Hne; by apply Hok).
      replace (i + 1)%nat with (S i) by lia. rewrite IH.
      cbn [andb]. destruct (forallb _ _); [|done].
      rewrite <- app_assoc. do 2 f_equal.
      unfold pair_at. cbn [fst snd]. by rewrite Es.
    + rewrite decide_True; [done|].
      intros Hnul. apply Hok in Hnul. done.
Qed.

(** X25. What [parse_hexhash] accepts: the string is read in pairs, a last
    odd character is dropped; when every pair is one [strtoul] reads to
    its end the result has one byte per pair, and otherwise it is
    empty. *)
Theorem parse_hexhash_accepts_exactly (hexhash : string) :
  let cs := chars_of_string hexhash in
  let n := (String.length hexhash / 2)%nat in
  if forallb (fun j => pair_ok (pair_at cs j).1 (pair_at cs j).2) (seq 0 n)
  then length (parse_hexhash hexhash) = n
  else parse_hexhash hexhash = [].
Proof.
  intros cs n. unfold parse_hexhash. fold cs n.
  rewrite parse_hexhash_loop_exact.
  destruct (forallb _ _); [|done].
  by rewrite app_nil_l, length_fmap, length_seq.
Qed.

Lemma is_hex_cases c :
  is_hex c = true ->
  c ∈ ["0"; "1"; "2"; "3"; "4"; "5"; "6"; "7"; "8"; "9";
       "a"; "b"; "c"; "d"; "e"; "f"; "A"; "B"; "C"; "D"; "E"; "F"]%char.
Proof.
  destruct c as [[] [] [] [] [] [] [] []]; intros Hd; vm_compute in Hd;
    try discriminate Hd; set_solver.
Qed.

Lemma hex_pair_table :
  forallb (fun c0 =>
    forallb (fun c1 =>
      bool_decide
        (strtoul [c0; c1; NUL] 16
         = (U8.val (U8.of_Z (strtoul [c0; c1; NUL] 16).1), 2%nat)
         /\ hex_chars [U8.of_Z (strtoul [c0; c1; NUL] 16).1]
            = [tolower c0; tolower c1]))
      ["0"; "1"; "2"; "3"; "4"; "5"; "6"; "7"; "8"; "9";
       "a"; "b"; "c"; "d"; "e"; "f"; "A"; "B"; "C"; "D"; "E"; "F"]%char)
    ["0"; "1"; "2"; "3"; "4"; "5"; "6"; "7"; "8"; "9";
     "a"; "b"; "c"; "d"; "e"; "f"; "A"; "B"; "C"; "D"; "E"; "F"]%char = true.
Proof. vm_compute. reflexivity. Qed.

(** A pair of hexadecimal digits is read as the byte they spell. *)
Lemma hex_pair c0 c1 :
  is_hex c0 = true -> is_hex c1 = true ->
  (strtoul [c0; c1; NUL] 16).2 = 2%nat
  /\ hex_chars [U8.of_Z (strtoul [c0; c1; NUL] 16).1]
     = [tolower c0; tolower c1].
Proof.
  intros H0%is_hex_cases H1%is_hex_cases.
  pose proof hex_pair_table as Ht.
  rewrite forallb_forall in Ht.
  specialize (Ht c0 (proj1 (list_elem_of_In _ _) H0)).
  rewrite forallb_forall in Ht.
  specialize (Ht c1 (proj1 (list_elem_of_In _ _) H1)).
  apply bool_decide_eq_true in Ht as [E1 E2]. split; [|done].
  by rewrite E1.
Qed.

Lemma parse_hexhash_loop_hex n : forall cs pre i acc,
  Forall (fun c => is_hex c = true) cs ->
  length cs = (2 * n)%nat ->
  length pre = (i * 2)%nat ->
  exists r,
    parse_hexhash_loop (pre ++ cs) n i acc = acc ++ r
    /\ hex_chars r = tolower <$> cs.
Proof.
  induction n as [|n IH]; intros cs pre i acc Hhex Hlen Hpre.
  - destruct cs; [|done]. exists []. simpl. by rewrite app_nil_r.
  - destruct cs as [|c0 [|c1 cs]]; simpl in Hlen; [lia..|].
    apply Forall_cons in Hhex as [H0 Hhex].
    apply Forall_cons in Hhex as [H1 Hhex].
    cbn [parse_hexhash_loop].
    assert (char_at (pre ++ c0 :: c1 :: cs) (i * 2) = c0) as ->.
    { unfold char_at. rewrite lookup_app_r by lia.
      by replace (i * 2 - length pre)%nat with 0%nat by lia. }
    assert (char_at (pre ++ c0 :: c1 :: cs) (i * 2 + 1) = c1) as ->.
    { unfold char_at. rewrite lookup_app_r by lia.
      by replace (i * 2 + 1 - length pre)%nat with 1%nat by lia. }
    destruct (hex_pair c0 c1 H0 H1) as [Herr Hb].
    destruct (strtoul [c0; c1; NUL] 16) as [v err]. cbn [fst snd] in *.
    subst err. rewrite decide_False by (intros Hne; by apply Hne).
    destruct (IH cs (pre ++ [c0; c1]) (i + 1)%nat (acc ++ [U8.of_Z v]) Hhex)
      as (r & Er & Hr); [lia | rewrite length_app; simpl; lia |].
    exists (U8.of_Z v :: r). split.
    + rewrite <- app_assoc in Er. cbn [app] in Er. rewrite Er.
      by rewrite <- app_assoc.
    + change (U8.of_Z v :: r) with ([U8.of_Z v] ++ r).
      rewrite hex_chars_app, Hb, Hr. done.
Qed.

Lemma String_length_chars s : String.length s = length (list_ascii_of_string s).
Proof. induction s as [|c s IH]; simpl; [done|by rewrite IH]. Qed.

(** X24. Round trip the other way: a string of an even, positive number of
    hexadecimal digits parses to a hash that formats to the same string
    in lower case. *)
Theorem parse_then_format (hexhash : string) :
  hexhash <> ""%string ->
  Nat.even (String.length hexhash) = true ->
  Forall (fun c => is_hex c = true) (chars_of_string hexhash) ->
  format_hexhash (parse_hexhash hexhash)
  = Some (string_of_list_ascii (tolower <$> chars_of_string hexhash)).
Proof.
  intros Hne Heven Hhex.
  apply Nat.even_spec in Heven as [n Hn].
  unfold parse_hexhash. rewrite Hn.
  replace (2 * n / 2)%nat with n by (rewrite Nat.mul_comm, Nat.div_mul; done).
  rewrite String_length_chars in Hn.
  destruct (parse_hexhash_loop_hex n (chars_of_string hexhash) [] 0%nat []
              Hhex Hn eq_refl) as (r & Er & Hr).
  rewrite !app_nil_l in Er. rewrite Er.
  rewrite format_hexhash_spec; [by rewrite Hr|].
  intros ->. destruct hexhash; [done|]. done.
Qed.

Lemma parse_then_format_witness :
  format_hexhash (parse_hexhash "A50f")
  = Some (string_of_list_ascii (tolower <$> chars_of_string "A50f")).
Proof.
  apply parse_then_format; [done | reflexivity |].
  repeat constructor.
Defined.

Lemma hex_round_trip_nonempty_witness :
  exists s, format_hexhash [xa5; x0f] = Some s /\ parse_hexhash s = [xa5; x0f].
Proof. apply hex_round_trip_nonempty. discriminate. Defined.

(** ** Which hashes share a slot *)

(** X11. Two hashes have the same key for a partition exactly when they
    agree on every bit of that partition: then, and only then, the
    later [insert] takes the slot of the earlier one. *)
Theorem same_slot_iff (db : option DB) (B k : Z) (X Y : hash_string) (i : Z) :
  valid_params B k -> partitions_fit B k ->
  Z.of_nat (length X) = ceil_div B 8 ->
  Z.of_nat (length Y) = ceil_div B 8 ->
  0 <= i < (k + 3) / 2 ->
  let hm := HmSearchImpl_new db B k in
  let b := ceil_div B ((k + 3) / 2) in
  exists kX kY psize,
    get_partition_key hm X i = Some (kX, psize)
    /\ get_partition_key hm Y i = Some (kY, psize)
    /\ psize = Z.min b (B - i * b)
    /\ (kX = kY <->
        forall g, i * b <= g < i * b + psize ->
          hash_bit_at X g = hash_bit_at Y g).
Proof.
  intros Hv Hfit HX HY Hi hm b.
  pose proof Hv as (HB & HB8 & Hk & _).
  assert (ceil_div B 8 = B / 8) as Hc by (unfold ceil_div; lia).
  rewrite Hc in HX, HY.
  destruct (geometry db B k Hv Hfit) as (_ & _ & _ & _ & HP & Hb & Hf).
  destruct (partition_start db B k Hv Hfit i Hi) as [Hs0 Hs].
  destruct (get_partition_key_defined db B k Hv Hfit X i HX Hi)
    as (kX & EX & _).
  destruct (get_partition_key_defined db B k Hv Hfit Y i HY Hi)
    as (kY & EY & _).
  fold hm b in EX, EY, HP, Hb, Hf, Hs0, Hs.
  exists kX, kY, (Z.min b (B - i * b)).
  split; [done|]. split; [done|]. split; [done|]. split.
  - intros <- g Hg.
    destruct (get_partition_key_bits db B k Hv Hfit X i kX _ HX Hi EX)
      as (_ & _ & _ & HbX).
    destruct (get_partition_key_bits db B k Hv Hfit Y i kX _ HY Hi EY)
      as (_ & _ & _ & HbY).
    fold b in HbX, HbY.
    assert (0 <= g / 8 - i * b / 8) as Hj0 by lia.
    assert (g / 8 - i * b / 8 < (b + 7) / 8 + 1) as Hj1 by lia.
    destruct (HbX (Z.to_nat (g / 8 - i * b / 8)) (g mod 8)
                ltac:(lia) ltac:(lia)) as (kb & Ekb & HbitX).
    destruct (HbY (Z.to_nat (g / 8 - i * b / 8)) (g mod 8)
                ltac:(lia) ltac:(lia)) as (kb' & Ekb' & HbitY).
    rewrite Ekb in Ekb'. injection Ekb' as <-.
    rewrite Z2Nat.id in HbitX, HbitY by lia.
    replace (8 * (i * b / 8 + (g / 8 - i * b / 8)) + g mod 8) with g
      in HbitX, HbitY by lia.
    rewrite bool_decide_eq_true_2 in HbitX, HbitY by lia.
    simpl in HbitX, HbitY. congruence.
  - intros Hagree.
    by apply (keys_agree db B k Hv Hfit X Y i kX kY _ _ HX HY Hi EX EY).
Qed.

Lemma same_slot_iff_witness :
  let hm := HmSearchImpl_new None 8 2 in
  let b := ceil_div 8 ((2 + 3) / 2) in
  exists kX kY psize,
    get_partition_key hm [xa5] 0 = Some (kX, psize)
    /\ get_partition_key hm [xa4] 0 = Some (kY, psize)
    /\ psize = Z.min b (8 - 0 * b)
    /\ (kX = kY <->
        forall g, 0 * b <= g < 0 * b + psize ->
          hash_bit_at [xa5] g = hash_bit_at [xa4] g).
Proof.
  apply (same_slot_iff None 8 2 [xa5] [xa4] 0);
    [exact valid_8_2 | exact fit_8_2 | reflexivity | reflexivity | lia].
Defined.

(** X12. With at most 256 partitions ([k <= 509]) the keys of different
    partitions differ, whatever the hashes: byte 1 of a key is the
    partition number. *)
Theorem partitions_keep_apart (db : option DB) (B k : Z) (X Y : hash_string)
    (i j : Z) (kX kY : list byte) (psX psY : Z) :
  k <= 509 ->
  0 <= i < (k + 3) / 2 -> 0 <= j < (k + 3) / 2 -> i <> j ->
  get_partition_key (HmSearchImpl_new db B k) X i = Some (kX, psX) ->
  get_partition_key (HmSearchImpl_new db B k) Y j = Some (kY, psY) ->
  kX <> kY.
Proof.
  intros Hk Hi Hj Hne EX EY Heq. subst kY.
  unfold get_partition_key in EX, EY.
  case_decide; [done|].
  destruct (copy_bits X _ _ _) as [rX|]; [|done].
  destruct (copy_bits Y _ _ _) as [rY|]; [|done].
  simpl in EX, EY. injection EX as <- _. injection EY as E _ _.
  apply (f_equal U8.val) in E. rewrite !U8_val_of_Z in E.
  rewrite !Z.mod_small in E by lia. lia.
Qed.

Lemma partitions_keep_apart_witness :
  fst <$> get_partition_key (HmSearchImpl_new None 8 2) [xa5] 0
  <> fst <$> get_partition_key (HmSearchImpl_new None 8 2) [xa5] 1.
Proof.
  destruct (get_partition_key (HmSearchImpl_new None 8 2) [xa5] 0)
    as [[kX psX]|] eqn:EX; [|discriminate EX].
  destruct (get_partition_key (HmSearchImpl_new None 8 2) [xa5] 1)
    as [[kY psY]|] eqn:EY; [|discriminate EY].
  intros [= E]. revert E.
  apply (partitions_keep_apart None 8 2 [xa5] [xa5] 0 1 kX kY psX psY);
    [lia | lia | lia | lia | exact EX | exact EY].
Defined.

(** ** Parameters for which every operation is defined *)



